(** * Verification of the console's mock-API and OxQL chart utilities

    A shallow embedding of
      - [src/mock-api/msw/util.ts]            (pagination, role resolution,
                                               IP ranges, synthetic metrics)
      - [src/app/components/oxql-metrics/util.ts] (OxQL result shaping)
    together with the properties the specification states about them.

    Conventions of the embedding.
      - A JavaScript array is a [list]; array methods are the list
        functions of stdpp ([take], [drop], [list_find], [filter], [fmap]).
      - An integer-valued JavaScript [number] (index, limit, millisecond
        time value, value of the random walk) is a [Z]; where the source
        multiplies past 2^53, in the generator, the rounding to a double is
        written out ([to_double]).  A real-valued [number] is a rational
        [Q]: arithmetic is exact, so rounding of IEEE doubles, NaN and the
        infinities are outside the model.
      - [T | null | undefined] is [nullable T]; [T | null] is [option T].
      - A function that can throw returns [option]: [None] is the thrown
        exception.
      - The global [db] and the ambient [Date.now()] / [Math.random()] are
        explicit arguments. *)

From Stdlib Require Import ZArith QArith Qround Qminmax Qpower Lqa Lia Ascii String.
From stdpp Require Import base tactics option list sets strings pretty gmap.

Local Open Scope Z_scope.

(** ** JavaScript values *)

(** [T | null | undefined], as in [limit?: number | null]. *)
Inductive nullable (A : Type) : Type :=
  | undefined
  | null
  | val (a : A).
Arguments undefined {A}.
Arguments null {A}.
Arguments val {A} a.

(** [x || d] on a nullable number: [0], [null] and [undefined] are falsy. *)
Definition or_default (x : nullable Z) (d : Z) : Z :=
  match x with
  | val n => if n =? 0 then d else n
  | _ => d
  end.

(** Truthiness of a nullable string: only a non-empty string is truthy. *)
Definition truthy_string (x : nullable string) : option string :=
  match x with
  | val s => if decide (s = EmptyString) then None else Some s
  | _ => None
  end.

(** ** Arrays *)

Module JsArray.

(** [Array.prototype.findIndex]: index of the first match, or [-1]. *)
Definition findIndex {A} (P : A → Prop) `{∀ x, Decision (P x)}
    (l : list A) : Z :=
  match list_find P l with
  | Some (i, _) => Z.of_nat i
  | None => -1
  end.

(** Relative index of [slice]: negative counts from the end, then clamp
    into [0, len]. *)
Definition relative (len k : Z) : Z :=
  if k <? 0 then Z.max (len + k) 0 else Z.min k len.

(** [l.slice(s, e)] for integer arguments. *)
Definition slice {A} (l : list A) (s e : Z) : list A :=
  let len := Z.of_nat (length l) in
  let k := relative len s in
  let final := relative len e in
  take (Z.to_nat (final - k)) (drop (Z.to_nat k) l).

(** [l.slice(s)]: the end defaults to the length. *)
Definition slice_from {A} (l : list A) (s : Z) : list A :=
  slice l s (Z.of_nat (length l)).

(** [l[k]] for an integer [k]; [None] is [undefined]. *)
Definition at_index {A} (l : list A) (k : Z) : option A :=
  if k <? 0 then None else l !! Z.to_nat k.

End JsArray.

(** ** Pagination ([paginated], mock-api/msw/util.ts) *)

(** [I extends { id: string }]. *)
Class HasId (I : Type) := id_of : I → string.

Record PaginateOptions := {
  limit : nullable Z;
  pageToken : nullable string;
}.

Record ResultsPage (I : Type) := {
  items : list I;
  nextPage : option string;
}.
Arguments items {I} _.
Arguments nextPage {I} _.

Section Pagination.
Context {I : Type} `{HasId I}.

(** [None] is the [TypeError] of reading [.id] of [undefined] in the last
    branch. *)
Definition paginated (params : PaginateOptions) (l : list I)
    : option (ResultsPage I) :=
  let limit := or_default (limit params) 100 in
  let pageToken := pageToken params in
  let startIndex :=
    match truthy_string pageToken with
    | Some t => JsArray.findIndex (λ i, id_of i = t) l
    | None => 0
    end in
  let startIndex := if startIndex <? 0 then 0 else startIndex in
  if Z.of_nat (length l) <? startIndex then
    Some {| items := []; nextPage := None |}
  else if Z.of_nat (length l) <=? limit + startIndex then
    Some {| items := JsArray.slice_from l startIndex; nextPage := None |}
  else
    let page := JsArray.slice l startIndex (startIndex + limit) in
    match JsArray.at_index l (startIndex + limit) with
    | Some it => Some {| items := page; nextPage := Some (id_of it) |}
    | None => None
    end.

(** A client that follows the tokens: call, and while the page carries a
    token call again with it.  [fuel] bounds the number of calls; [None]
    means that a call threw or that the fuel ran out before a page came
    back with [nextPage = null]. *)
Fixpoint fetch_all (fuel : nat) (lim : nullable Z) (tok : nullable string)
    (l : list I) : option (list (ResultsPage I)) :=
  match fuel with
  | O => None
  | S fuel' =>
      match paginated {| limit := lim; pageToken := tok |} l with
      | None => None
      | Some pg =>
          match nextPage pg with
          | None => Some [pg]
          | Some t => cons pg <$> fetch_all fuel' lim (val t) l
          end
      end
  end.

(** The chained calls come to an end, the last page has a null token and
    the pages laid end to end are the collection. *)
Definition visits_each_once (lim : Z) (l : list I) : Prop :=
  ∃ fuel pages,
    fetch_all fuel (val lim) undefined l = Some pages
    ∧ concat (items <$> pages) = l
    ∧ (nextPage <$> last pages) = Some None.

(** The reading of the token as the id of the last item of the slice that
    came with it. *)
Definition token_is_last_id (params : PaginateOptions) (l : list I) : Prop :=
  ∀ pg t,
    paginated params l = Some pg → nextPage pg = Some t →
    (id_of <$> last (items pg)) = Some t.

(** The [startIndex] of [paginated] after clamping, as a position. *)
Definition start_index (tok : nullable string) (l : list I) : nat :=
  match truthy_string tok with
  | Some t =>
      match list_find (λ i, id_of i = t) l with
      | Some (i, _) => i
      | None => 0%nat
      end
  | None => 0%nat
  end.

(** The page of [L] items from position [k], with the id of the item after
    them as token. *)
Definition page_at (L : Z) (k : nat) (l : list I) : ResultsPage I :=
  {| items := take (Z.to_nat L) (drop k l);
     nextPage := id_of <$> l !! (k + Z.to_nat L)%nat |}.

End Pagination.

(** ** Role resolution ([userHasRole], mock-api/msw/util.ts) *)

(** [RoleKey]. *)
Inductive RoleKey : Type := admin | collaborator | viewer.

#[global] Instance RoleKey_eq_dec : EqDecision RoleKey.
Proof. solve_decision. Defined.

(** [DbRoleAssignmentResourceType] is a union of string literals declared
    in the mock API's index module; its values are kept as the strings
    they are at run time. *)
Definition DbRoleAssignmentResourceType : Type := string.

Record User := {
  user_id : string;
  display_name : string;
}.

Record UserGroup := {
  group_id : string;
  group_display_name : string;
}.

Record GroupMembership := {
  userId : string;
  groupId : string;
}.

Record DbRoleAssignment := {
  resource_type : DbRoleAssignmentResourceType;
  resource_id : string;
  identity_id : string;
  role_name : RoleKey;
}.

(** The part of the mock database that role resolution reads. *)
Record Db := {
  userGroups : list UserGroup;
  groupMemberships : list GroupMembership;
  roleAssignments : list DbRoleAssignment;
}.

(** Given a role A, the roles (including A) that confer at least the powers
    of A. *)
Definition roleOrStronger (role : RoleKey) : list RoleKey :=
  match role with
  | viewer => [viewer; collaborator; admin]
  | collaborator => [collaborator; admin]
  | admin => [admin]
  end.

(** [Array.prototype.find]. *)
Definition find {A} (P : A → Prop) `{∀ x, Decision (P x)} (l : list A)
    : option A :=
  snd <$> list_find P l.

(** [Array.prototype.includes] and [Array.prototype.some]. *)
Definition includes {A} `{EqDecision A} (l : list A) (x : A) : bool :=
  bool_decide (x ∈ l).

Definition some {A} (f : A → bool) (l : list A) : bool := existsb f l.

(** [.map(gm => db.userGroups.find(...)).filter(g => !!g).map(g => g.id)]:
    the ids of the groups found, memberships of unknown groups dropped. *)
Definition userGroupIds (db : Db) (user : User) : list string :=
  let memberships :=
    filter (λ gm, userId gm = user_id user) (groupMemberships db) in
  let found :=
    (λ gm, find (λ g, group_id g = groupId gm) (userGroups db))
      <$> memberships in
  group_id <$> omap (λ g, g) found.

(** All actors with at least the specified role on the resource. *)
Definition actorsWithRole (db : Db)
    (resourceType : DbRoleAssignmentResourceType) (resourceId : string)
    (role : RoleKey) : list string :=
  identity_id <$>
    filter (λ ra, resource_type ra = resourceType
                  ∧ resource_id ra = resourceId
                  ∧ role_name ra ∈ roleOrStronger role)
           (roleAssignments db).

Definition userHasRole (db : Db) (user : User)
    (resourceType : DbRoleAssignmentResourceType) (resourceId : string)
    (role : RoleKey) : bool :=
  let actors := actorsWithRole db resourceType resourceId role in
  some (λ id, includes actors id) (user_id user :: userGroupIds db user).

(** The identities a user acts under: their own id, and the id of every
    group of [db.userGroups] that a membership record of the user names. *)
Definition acts_as (db : Db) (user : User) (ident : string) : Prop :=
  ident = user_id user
  ∨ ∃ gm g,
      gm ∈ groupMemberships db ∧ userId gm = user_id user
      ∧ g ∈ userGroups db ∧ group_id g = groupId gm
      ∧ ident = group_id g.

(** Some assignment on exactly the pair (type, id) gives [ident] a role in
    the closure of [role]. *)
Definition assigned (db : Db) (ident : string)
    (resourceType : DbRoleAssignmentResourceType) (resourceId : string)
    (role : RoleKey) : Prop :=
  ∃ ra,
    ra ∈ roleAssignments db
    ∧ resource_type ra = resourceType ∧ resource_id ra = resourceId
    ∧ identity_id ra = ident
    ∧ role_name ra ∈ roleOrStronger role.

(** ** IP ranges ([ipInRange], [ipInAnyRange], mock-api/msw/util.ts) *)

Module Ip.

(** The [type] field of what [parseIp] returns. *)
Inductive ParsedIpType : Type := v4 | v6 | error.

#[global] Instance ParsedIpType_eq_dec : EqDecision ParsedIpType.
Proof. solve_decision. Defined.

Record IpRange := {
  first : string;
  last : string;
}.

(** [ranges.some(f)] for a callback that can throw: stops at the first
    [true], and an exception of the callback ends the scan. *)
Fixpoint some_throwing {A} (f : A → option bool) (l : list A) : option bool :=
  match l with
  | [] => Some false
  | x :: l' =>
      match f x with
      | None => None
      | Some true => Some true
      | Some false => some_throwing f l'
      end
  end.

Section WithParsers.
(** [parseIp] (of [~/util/ip]) and the constructors [IPv4], [IPv6] (of the
    ip-num package) are used, not defined, by the file: they are taken as
    given.  [IPv4 s] is [new IPv4(s).value], [None] when the constructor
    throws on [s]; likewise [IPv6]. *)
Context (parseIp : string → ParsedIpType) (IPv4 IPv6 : string → option Z).

Definition ipToBigInt (ip : string) : option Z :=
  if decide (parseIp ip = v4) then IPv4 ip else IPv6 ip.

Definition ipRangeLen (r : IpRange) : option Z :=
  l ← ipToBigInt (last r);
  f ← ipToBigInt (first r);
  Some (l - f + 1).

Definition ipInRange (ip : string) (r : IpRange) : option bool :=
  let ipIsV4 := bool_decide (parseIp ip = v4) in
  let rangeIsV4 := bool_decide (parseIp (first r) = v4) in
  (* if they're not the same version then definitely false *)
  if negb (Bool.eqb ipIsV4 rangeIsV4) then Some false
  else
    ipNum ← ipToBigInt ip;
    f ← ipToBigInt (first r);
    if f <=? ipNum then
      l ← ipToBigInt (last r);
      Some (ipNum <=? l)
    else Some false.

Definition ipInAnyRange (ip : string) (ranges : list IpRange) : option bool :=
  some_throwing (ipInRange ip) ranges.

(** An address that parses, with a constructor that accepts it. *)
Definition valid_address (a : string) : Prop :=
  parseIp a ≠ error ∧ is_Some (ipToBigInt a).

(** A range as the data model wants it: two addresses of one family. *)
Definition well_formed (r : IpRange) : Prop :=
  valid_address (first r) ∧ valid_address (last r)
  ∧ parseIp (first r) = parseIp (last r).

End WithParsers.

(** *** Textual addresses

    Concrete readers of dotted quads and of colon-separated hextets (with
    one optional [::]), to run the functions above on written addresses. *)

Fixpoint split_on (c : ascii) (s : string) : list string :=
  match s with
  | EmptyString => [EmptyString]
  | String a s' =>
      if decide (a = c) then EmptyString :: split_on c s'
      else match split_on c s' with
           | [] => [String a EmptyString]
           | w :: ws => String a w :: ws
           end
  end.

Definition digit_of (base : Z) (a : ascii) : option Z :=
  let n := Z.of_N (Ascii.N_of_ascii a) in
  let d :=
    if (48 <=? n) && (n <=? 57) then Some (n - 48)
    else if (97 <=? n) && (n <=? 102) then Some (n - 87)
    else if (65 <=? n) && (n <=? 70) then Some (n - 55)
    else None in
  d ≫= λ v, if v <? base then Some v else None.

Fixpoint number_of (base : Z) (acc : Z) (s : string) : option Z :=
  match s with
  | EmptyString => Some acc
  | String a s' => d ← digit_of base a; number_of base (base * acc + d) s'
  end.

(** A non-empty run of at most [width] digits. *)
Definition field_of (base : Z) (width : nat) (s : string) : option Z :=
  if decide (s = EmptyString) then None
  else if decide (String.length s ≤ width)%nat then number_of base 0 s
  else None.

Definition join_fields (bits : Z) (fs : list Z) : Z :=
  foldl (λ acc f, Z.shiftl acc bits + f) 0 fs.

(** Modelled from the spec: [new IPv4(s).value] of the ip-num package,
    which the spec has convert a textual address to an unsigned integer;
    [None] where the text is no dotted quad. *)
Definition IPv4_value (s : string) : option Z :=
  fs ← mapM (field_of 10 3) (split_on "."%char s);
  if decide (length fs = 4%nat ∧ Forall (λ f, f ≤ 255) fs)
  then Some (join_fields 8 fs) else None.

(** The hextets of one side of a [::]; an empty side has none. *)
Definition hextets (s : string) : option (list Z) :=
  if decide (s = EmptyString) then Some []
  else mapM (field_of 16 4) (split_on ":"%char s).

(** Cut at the first [::]. *)
Fixpoint cut_double_colon (s : string) : option (string * string) :=
  match s with
  | String ":"%char (String ":"%char s') => Some (EmptyString, s')
  | String a s' =>
      '(l, r) ← cut_double_colon s'; Some (String a l, r)
  | EmptyString => None
  end.

(** Modelled from the spec: [new IPv6(s).value] of the ip-num package, an
    unsigned integer of up to 128 bits; [None] where the text is not eight
    hextets, or fewer around one [::]. *)
Definition IPv6_value (s : string) : option Z :=
  match cut_double_colon s with
  | None =>
      fs ← hextets s;
      if decide (length fs = 8%nat) then Some (join_fields 16 fs) else None
  | Some (l, r) =>
      ls ← hextets l;
      rs ← hextets r;
      if decide (length ls + length rs ≤ 7)%nat
      then Some (join_fields 16
                   (ls ++ replicate (8 - length ls - length rs) 0 ++ rs))
      else None
  end.

(** Modelled from the spec: the [type] of [parseIp(s)] of [~/util/ip], the
    family of a textual address, [error] when it is neither. *)
Definition parse_type (s : string) : ParsedIpType :=
  match IPv4_value s, IPv6_value s with
  | Some _, _ => v4
  | None, Some _ => v6
  | None, None => error
  end.

End Ip.

(** ** Synthetic metrics ([generateUtilization], mock-api/msw/util.ts) *)

(** Strict comparison of two numbers, as a boolean. *)
Definition Qltb (a b : Q) : bool := negb (Qle_bool b a).

(** The double nearest to an integer (ties to even).  Integers below 2^53
    in magnitude are doubles; larger ones keep 53 significant bits. *)
Definition to_double (n : Z) : Z :=
  let e := Z.max 0 (Z.log2 (Z.abs n) - 52) in
  let g := 2 ^ e in
  let q := n / g in
  let r := n mod g in
  if 2 * r <? g then q * g
  else if g <? 2 * r then (q + 1) * g
  else if Z.even q then q * g else (q + 1) * g.

Module Rando.

Record t := {
  a : Z;
  c : Z;
  m : Z;
  seed : Z;
}.

(** [new Rando(seed)], with the default multiplier, increment and modulus. *)
Definition new (seed : Z) : t :=
  {| seed := seed; a := 1664525; c := 1013904223; m := 2 ^ 32 |}.

(** [next()]: the new state and the returned [seed / m].  The product and
    the sum are rounded as doubles; [%] is the remainder with the sign of
    the dividend. *)
Definition next (r : t) : Q * t :=
  let seed' := Z.rem (to_double (to_double (a r * seed r) + c r)) (m r) in
  ((inject_Z seed' / inject_Z (m r))%Q,
   {| seed := seed'; a := a r; c := c r; m := m r |}).

End Rando.

(** [SystemMetricName]; the source names two of the three and treats the
    third as the remaining case. *)
Inductive SystemMetricName : Type :=
  | cpus_provisioned
  | ram_provisioned
  | virtual_disk_space_provisioned.

Definition metric_string (n : SystemMetricName) : string :=
  match n with
  | cpus_provisioned => "cpus_provisioned"
  | ram_provisioned => "ram_provisioned"
  | virtual_disk_space_provisioned => "virtual_disk_space_provisioned"
  end.

Record Sled := {
  usable_hardware_threads : Q;
  usable_physical_ram : Q;
}.

Record SledCaps := {
  usableHardwareThreads : Q;
  usablePhysicalRam : Q;
}.

Record Capacity := {
  cpu : Q;
  disk_tib : Q;
  ram_gib : Q;
}.

(** [differenceInSeconds(l, r)] of date-fns on time values in
    milliseconds: the difference in whole seconds, truncated toward zero. *)
Definition differenceInSeconds (l r : Z) : Z := Z.quot (l - r) 1000.

(** The state of the loop of [generateUtilization]: the values so far
    (latest first), the counter [x] and the generator. *)
Record Walk := {
  latest : Z;
  earlier : list Z;
  x : Z;
  rando : Rando.t;
}.

(** One iteration of the loop, at index [i].  [valueInterval] is [None]
    when it is [Infinity] (an empty time range), which no [x] equals. *)
Definition walk_step (valueInterval : option Z) (w : Walk) (i : Z) : Walk :=
  let v := latest w in
  if bool_decide (Some (x w) = valueInterval) then
    let '(random, rando') := Rando.next (rando w) in
    let threshold : Q :=
      if (i <? 250) || ((500 <? i) && (i <? 750)) then 1%Q else 0.375%Q in
    let offset :=
      if Qltb random threshold then
        let offset := Qfloor (random * 50)%Q in
        if Qltb random (threshold / 2.5)%Q then offset * -1 else offset
      else 0 in
    let v' := if Qltb 0.72%Q random then v + offset else Z.max (v - offset) 0 in
    {| latest := v'; earlier := v :: earlier w; x := 0; rando := rando' |}
  else
    {| latest := v; earlier := v :: earlier w; x := x w + 1;
       rando := rando w |}.

Definition walk_values (w : Walk) : list Z := reverse (latest w :: earlier w).

Section Utilization.
(** [totalCapacity] (of the API utilities) and [GiB], [TiB] (of
    [~/util/units]) are used, not defined, by the file: they are taken as
    given. *)
Context (totalCapacity : list SledCaps → Capacity) (GiB TiB : Q).

Definition capacity_of (sleds : list Sled) : Capacity :=
  totalCapacity
    ((λ s, {| usableHardwareThreads := usable_hardware_threads s;
              usablePhysicalRam := usable_physical_ram s |}) <$> sleds).

(** The [cap] of [generateUtilization]. *)
Definition cap_of (metricName : SystemMetricName) (sleds : list Sled) : Q :=
  let capacity := capacity_of sleds in
  match metricName with
  | cpus_provisioned => cpu capacity
  | virtual_disk_space_provisioned => (disk_tib capacity * TiB)%Q
  | ram_provisioned => (ram_gib capacity * GiB)%Q
  end.

(** The walk before normalisation: the 1000 [values] of the source.  The
    quotient behind [valueInterval] is exact here; nothing proved below
    depends on its value. *)
Definition raw_values (now : Z) (metricName : SystemMetricName)
    (startTime endTime : Z) : list Z :=
  let adjStartTime := Z.max startTime (now - 1000 * 60 * 60 * 24 * 90) in
  let metricNameSeed :=
    foldl (λ acc char, acc + Z.of_N (Ascii.N_of_ascii char)) 0
          (list_ascii_of_string (metric_string metricName)) in
  let rando := Rando.new (adjStartTime + metricNameSeed) in
  let diff := Z.abs (differenceInSeconds adjStartTime endTime) in
  let timeInterval : Q := (inject_Z diff / 900)%Q in
  let dataCount := 1000%nat in
  let valueInterval :=
    if diff =? 0 then None else Some (Qfloor (1000 / timeInterval)%Q) in
  let startVal := 500 in
  walk_values
    (foldl (walk_step valueInterval)
           {| latest := startVal; earlier := []; x := 0; rando := rando |}
           (Z.of_nat <$> seq 1 (dataCount - 1))).

(** [Math.max(...values)]. *)
Definition maximum (values : list Z) : option Z :=
  match values with
  | [] => None
  | v :: vs => Some (foldl Z.max v vs)
  end.

(** [now] is what [Date.now()] returns and [rnd] what [Math.random()]
    returns during the call. *)
Definition generateUtilization (now : Z) (rnd : Q)
    (metricName : SystemMetricName) (startTime endTime : Z)
    (sleds : list Sled) : list Q :=
  let cap := cap_of metricName sleds in
  let values := raw_values now metricName startTime endTime in
  let currentMax := default 0 (maximum values) in
  let randomFactor := (rnd * (1 - 0.33) + 0.33)%Q in
  (λ value,
     let v := ((inject_Z value / inject_Z currentMax) * cap * randomFactor)%Q in
     match metricName with
     | cpus_provisioned => inject_Z (Qfloor v)
     | _ => v
     end) <$> values.

End Utilization.

(** ** OxQL result shaping (app/components/oxql-metrics/util.ts) *)

(** One entry of a value array as the summation sees it: a number, [null],
    or something whose [typeof] is not ['number'] (the API also has
    boolean, string and distribution arrays). *)
Inductive Point : Type :=
  | Num (n : Q)
  | Null
  | NonNumeric.

Module ValueArray.
Record t := { values : list Point }.
End ValueArray.

Module Values.
Record t := { values : ValueArray.t }.
End Values.

Module Points.
Record t := {
  timestamps : list Z;
  values : list Values.t;
}.
End Points.

Record Timeseries := { points : Points.t }.

(** [timeseries] is an object keyed by a string; [Object.values] lists its
    values in insertion order. *)
Record OxqlTable := {
  name : string;
  timeseries : list (string * Timeseries);
}.

Record OxqlQueryResult := { tables : list OxqlTable }.

Record ChartDatum := {
  timestamp : Z;
  value : option Q;
}.

Definition VCPU_KSTAT_INTERVAL_SEC : Q := 5.

(** [R.sum]: a left-to-right sum from 0. *)
Definition sum (l : list Q) : Q := foldl Qplus 0%Q l.

(** Returns 0 if there are no data points. *)
Definition getLargestValue (data : list ChartDatum) : Q :=
  match data with
  | [] => 0%Q
  | _ => foldl Qmax 0%Q (omap value data)
  end.

(** The largest [k] with [base ^ k ≤ n], for [1 ≤ n] and [2 ≤ base]. *)
Fixpoint floor_log (fuel : nat) (base n : Z) : Z :=
  match fuel with
  | O => 0
  | S fuel' =>
      if n <? base then 0 else 1 + floor_log fuel' base (n / base)
  end.

(** [Math.max(Math.floor(Math.log(largestValue) / Math.log(base)), 0)] for
    an integer [base] above 1 and a [largestValue] that is not negative.
    The floor of the quotient of logarithms is the [k] with
    [base ^ k ≤ largestValue < base ^ (k + 1)]; it is negative (or minus
    infinity) below 1, where the maximum is 0. *)
Definition getMaxExponent (largestValue : Q) (base : Z) : Z :=
  if Qltb largestValue 1 then 0
  else
    let n := Qfloor largestValue in
    Z.max (floor_log (S (Z.to_nat (Z.log2 n))) base n) 0.

(** [Math.round]: the nearest integer, halves upward. *)
Definition round (q : Q) : Z := Qfloor (q + 0.5)%Q.

(** Determine the mean window, in seconds, for the given time range;
    [datapoints] is the number of datapoints wanted in the chart, 60 when
    the argument is left out. *)
Definition getMeanWithinSeconds (start end_ : Z) (datapoints : option positive)
    : Z :=
  let datapoints := default 60%positive datapoints in
  let duration := differenceInSeconds end_ start in
  Z.max 5 (round (inject_Z duration / inject_Z (Z.pos datapoints))%Q).

Record TimeProps := {
  meanWithinSeconds : Z;
  adjustedStart : Z;
}.

Definition getTimePropsForOxqlQuery (startTime endTime : Z)
    (datapoints : option positive) : TimeProps :=
  let meanWithinSeconds :=
    getMeanWithinSeconds startTime endTime
      (Some (default 60%positive datapoints)) in
  let secondsToAdjust := meanWithinSeconds * 2 in
  let adjustedStart := startTime - secondsToAdjust * 1000 in
  {| meanWithinSeconds := meanWithinSeconds; adjustedStart := adjustedStart |}.

(** [ts.points.values.at(0)?.values.values?.[i]]; [None] is [undefined]. *)
Definition point_at (ts : Timeseries) (i : nat) : option Point :=
  v ← head (Points.values (points ts));
  ValueArray.values (Values.values v) !! i.

(** [typeof p === 'number']. *)
Definition as_number (p : option Point) : option Q :=
  match p with
  | Some (Num n) => Some n
  | _ => None
  end.

Definition sumValues (timeseries : list Timeseries) (arrLen : nat)
    : list (option Q) :=
  (λ i,
     let points := omap as_number ((λ ts, point_at ts i) <$> timeseries) in
     if bool_decide (0 < length points)%nat then Some (sum points) else None)
  <$> seq 0 arrLen.

Record ComposedData := {
  chartData : list ChartDatum;
  timeseriesCount : nat;
}.

(** [data] is [None] when the argument is [undefined]; the result is [None]
    when reading [data.tables[0].timeseries] throws for want of a table. *)
Definition composeOxqlData (data : option OxqlQueryResult)
    : option ComposedData :=
  match data with
  | None => Some {| chartData := []; timeseriesCount := 0 |}
  | Some data =>
      table ← head (tables data);
      let timeseriesData := snd <$> timeseries table in
      let timeseriesCount := length timeseriesData in
      if bool_decide (timeseriesCount = 0%nat)
      then Some {| chartData := []; timeseriesCount := timeseriesCount |}
      else
        let timestamps :=
          from_option (λ ts, Points.timestamps (points ts)) []
                      (head timeseriesData) in
        let summedValues := sumValues timeseriesData (length timestamps) in
        let chartData :=
          drop 1
            (imap (λ idx timestamp,
                     {| timestamp := timestamp;
                        value := mjoin (summedValues !! idx) |})
                  timestamps) in
        Some {| chartData := chartData; timeseriesCount := timeseriesCount |}
  end.

(** The chart properties without [yAxisTickFormatter], a closure over
    locale-dependent number formatting.  [unitForSet] is [None] where the
    source reads past the end of its table of units ([undefined]). *)
Record OxqlMetricChartProps := {
  data : list ChartDatum;
  label : string;
  unitForSet : option string;
}.

Definition getBytesChartProps (chartData : list ChartDatum)
    : OxqlMetricChartProps :=
  let base := 1024 in
  let byteUnits := ["Bytes"; "KiB"; "MiB"; "GiB"; "TiB"] in
  let largestValue := getLargestValue chartData in
  let maxExponent := getMaxExponent largestValue base in
  let bytesChartDivisor := (inject_Z base ^ maxExponent)%Q in
  let data :=
    (λ d, {| timestamp := timestamp d;
             value := (λ v, v / bytesChartDivisor)%Q <$> value d |})
    <$> chartData in
  let unitForSet := byteUnits !! Z.to_nat maxExponent in
  {| data := data;
     label := "(" +:+ default "undefined" unitForSet +:+ ")";
     unitForSet := unitForSet |}.

Definition getCountChartProps (chartData : list ChartDatum)
    : OxqlMetricChartProps :=
  {| data := chartData; label := "(Count)"; unitForSet := Some EmptyString |}.

Definition getUtilizationChartProps (chartData : list ChartDatum) (nCPUs : Q)
    : OxqlMetricChartProps :=
  let divisor := (VCPU_KSTAT_INTERVAL_SEC * 1000 * 1000 * 1000 * nCPUs)%Q in
  let data :=
    if Qltb 0 divisor then
      (λ d, {| timestamp := timestamp d;
               value := (λ v, (v * 100) / divisor)%Q <$> value d |})
      <$> chartData
    else [] in
  {| data := data; label := "(%)"; unitForSet := Some "%" |}.

(** The number that a timeseries has at index [i], if it has one. *)
Definition number_at (ts : Timeseries) (i : nat) : option Q :=
  as_number (point_at ts i).

(** [d'] is [d] with [f] applied to its value, a gap staying a gap; values
    are compared as rationals. *)
Definition scaled_by (f : Q → Q) (d d' : ChartDatum) : Prop :=
  timestamp d' = timestamp d
  ∧ match value d, value d' with
    | Some v, Some v' => (v' == f v)%Q
    | None, None => True
    | _, _ => False
    end.

(** ** The invariant of the random walk *)

(** What the loop keeps true: no value is negative, the start value is
    among them, and there is one value per iteration done. *)
Record walk_inv (n : nat) (w : Walk) : Prop := {
  inv_nonneg : Forall (λ v, 0 ≤ v) (latest w :: earlier w);
  inv_start : 500 ∈ latest w :: earlier w;
  inv_length : length (earlier w) = n;
}.

(** ** Sample data *)

(** A collection item: an id and a name, as [repeat] builds them. *)
Record Item := {
  item_id : string;
  item_name : string;
}.

#[global] Instance Item_HasId : HasId Item := item_id.

Definition item (s : string) : Item := {| item_id := s; item_name := s |}.

Definition demo_db : Db :=
  {| userGroups := [ {| group_id := "g1"; group_display_name := "web-devs" |} ];
     groupMemberships := [ {| userId := "u1"; groupId := "g1" |} ];
     roleAssignments :=
       [ {| resource_type := "project"; resource_id := "p1";
            identity_id := "g1"; role_name := admin |} ] |}.

Definition demo_user : User := {| user_id := "u1"; display_name := "Hannah" |}.

(** A timeseries with one value array over three timestamps. *)
Definition series (l : list Point) : Timeseries :=
  {| points :=
       {| Points.timestamps := [1000; 2000; 3000];
          Points.values :=
            [ {| Values.values := {| ValueArray.values := l |} |} ] |} |}.

(** A capacity in the manner of [totalCapacity]: threads and memory summed
    over the sleds, a fixed amount of disk. *)
Definition demo_capacity (sleds : list SledCaps) : Capacity :=
  {| cpu := sum (usableHardwareThreads <$> sleds);
     disk_tib := 32;
     ram_gib := sum (usablePhysicalRam <$> sleds) / 1073741824 |}.

(** * The rest of the two modules *)

(** ** Completions *)

(** How a call ends: it returns, or it throws a value. *)
Inductive completion (E A : Type) : Type :=
  | Normal (a : A)
  | Throw (e : E).
Arguments Normal {E A} a.
Arguments Throw {E A} e.

(** ** [repeat] (mock-api/msw/util.ts) *)

(** [T extends { id: string; name: string }], with the copy
    [{ ...obj, id, name }] that replaces the two fields. *)
Class HasName (T : Type) `{HasId T} := {
  name_of : T → string;
  with_id_name : string → string → T → T;
  id_of_with : ∀ i n o, id_of (with_id_name i n o) = i;
  name_of_with : ∀ i n o, name_of (with_id_name i n o) = n;
}.

#[global] Instance Item_HasName : HasName Item := {|
  name_of := item_name;
  with_id_name := λ i n _, {| item_id := i; item_name := n |};
  id_of_with := λ _ _ _, eq_refl;
  name_of_with := λ _ _ _, eq_refl;
|}.

(** Make a bunch of copies of an object with different names and IDs.
    [obj.id + i] appends the decimal digits of the index. *)
Definition repeat {T} `{HasName T} (obj : T) (n : nat) : list T :=
  (λ i, with_id_name (id_of obj +:+ pretty i) (name_of obj +:+ pretty i) obj)
  <$> seq 0 n.

(** ** Time windows and [handleMetrics] (mock-api/msw/util.ts) *)

(** [subHours(date, n)] of date-fns on a time value. *)
Definition subHours (date : Z) (amount : Z) : Z := date - amount * 3600000.

Record TimeWindow := {
  window_start : Z;
  window_end : Z;
}.

(** [getStartAndEndTime(params)]; [now] is the [new Date()] of the call, a
    field is [None] when it is left out. *)
Definition getStartAndEndTime (now : Z) (startTime endTime : option Z)
    : TimeWindow :=
  let endTime := default now endTime in
  let startTime := default (subHours endTime 24) startTime in
  {| window_start := startTime; window_end := endTime |}.

Inductive SortOrder : Type := ascending | descending.

Module MetricQuery.
Record t := {
  startTime : option Z;
  endTime : option Z;
  order : option SortOrder;
  limit : nullable Z;
}.
End MetricQuery.

Section HandleMetrics.
(** [genI64Data] (of [../metrics]) turns the data points and the window into
    measurements; it is used, not defined, by the file, as are
    [totalCapacity], [GiB] and [TiB]. *)
Context {Measurement : Type}
        (genI64Data : list Q → Z → Z → list Measurement)
        (totalCapacity : list SledCaps → Capacity) (GiB TiB : Q).

(** [now] is read by [getStartAndEndTime], [now'] and [rnd] by
    [generateUtilization]; [sleds] is [db.sleds]. *)
Definition handleMetrics (now now' : Z) (rnd : Q) (sleds : list Sled)
    (metricName : SystemMetricName) (query : MetricQuery.t)
    : list Measurement :=
  let w := getStartAndEndTime now (MetricQuery.startTime query)
                              (MetricQuery.endTime query) in
  let startTime := window_start w in
  let endTime := window_end w in
  if endTime <=? startTime then []
  else
    let dataPoints :=
      generateUtilization totalCapacity GiB TiB now' rnd metricName
        startTime endTime sleds in
    let items := genI64Data dataPoints startTime endTime in
    let items :=
      match MetricQuery.order query with
      | Some descending => reverse items
      | _ => items
      end in
    match MetricQuery.limit query with
    | val n => JsArray.slice items 0 n
    | _ => items
    end.

End HandleMetrics.

(** ** [errIfExists] (mock-api/msw/util.ts) *)

(** The primitive values a record field holds; a number is an integer. *)
Inductive JsValue : Type :=
  | JsUndefined
  | JsNull
  | JsBool (b : bool)
  | JsNumber (n : Z)
  | JsString (s : string).

#[global] Instance JsValue_eq_dec : EqDecision JsValue.
Proof. solve_decision. Defined.

Definition truthy (v : JsValue) : bool :=
  match v with
  | JsUndefined | JsNull => false
  | JsBool b => b
  | JsNumber n => negb (n =? 0)
  | JsString s => negb (bool_decide (s = EmptyString))
  end.

(** [v.toString()] for a truthy value. *)
Definition toString (v : JsValue) : string :=
  match v with
  | JsString s => s
  | JsNumber n => pretty n
  | JsBool true => "true"
  | JsBool false => "false"
  | JsNull => "null"
  | JsUndefined => "undefined"
  end.

(** [obj[key]]: a missing key reads as [undefined]. *)
Definition get (obj : gmap string JsValue) (key : string) : JsValue :=
  default JsUndefined (obj !! key).

(** The body of a [json(...)] error response and its status. *)
Record JsonError := {
  status : Z;
  error_code : string;
  message : option string;
  request_id : option string;
}.

(** [Object.entries(match).every(([key, value]) => item[key] === value)]. *)
Definition matches (match_ item : gmap string JsValue) : bool :=
  forallb (λ kv, bool_decide (get item kv.1 = kv.2)) (map_to_list match_).

Definition double_quote : string := String (ascii_of_nat 34) EmptyString.

(** [resourceLabel] is [None] when the argument is left out. *)
Definition errIfExists (collection : list (gmap string JsValue))
    (match_ : gmap string JsValue) (resourceLabel : option string)
    : completion JsonError () :=
  let resourceLabel := default "resource" resourceLabel in
  if some (matches match_) collection then
    let name :=
      if bool_decide (is_Some (match_ !! "name")) && truthy (get match_ "name")
      then get match_ "name"
      else if bool_decide (is_Some (match_ !! "id")) && truthy (get match_ "id")
      then get match_ "id"
      else JsString "<resource>" in
    Throw {| status := 400;
             error_code := "ObjectAlreadyExists";
             message := Some ("already exists: " +:+ resourceLabel +:+ " "
                              +:+ double_quote +:+ toString name
                              +:+ double_quote);
             request_id := None |}
  else Normal ().

(** ** [errIfInvalidDiskSize] (mock-api/msw/util.ts) *)

Module Disk.

Inductive DiskSource : Type :=
  | blank
  | snapshot (snapshot_id : string)
  | image (image_id : string)
  | importing_blocks.

Record DiskCreate := {
  size : Z;
  disk_source : DiskSource;
}.

(** A snapshot or an image of the database: its id and its size. *)
Record Sized := {
  sized_id : string;
  sized_size : Z;
}.

Section DiskSize.
(** [MIN_DISK_SIZE_GiB], [MAX_DISK_SIZE_GiB] (of the API client) and [GiB]
    (of [~/util/units]) are used, not defined, by the file. *)
Context (MIN_DISK_SIZE_GiB MAX_DISK_SIZE_GiB GiB : Z).

(** [find(...)?.size ?? 0]. *)
Definition size_of (id : string) (l : list Sized) : Z :=
  default 0 (sized_size <$> find (λ s, id = sized_id s) l).

(** [snapshots] and [images] are [db.snapshots] and [db.images]; the thrown
    value is the message. *)
Definition errIfInvalidDiskSize (snapshots images : list Sized)
    (disk : DiskCreate) : completion string () :=
  let source := disk_source disk in
  if size disk <? MIN_DISK_SIZE_GiB * GiB then
    Throw ("Disk size must be greater than or equal to "
           +:+ pretty MIN_DISK_SIZE_GiB +:+ " GiB")
  else if MAX_DISK_SIZE_GiB * GiB <? size disk then
    Throw ("Disk size must be less than or equal to "
           +:+ pretty MAX_DISK_SIZE_GiB +:+ " GiB")
  else
    match source with
    | snapshot snapshot_id =>
        let snapshotSize := size_of snapshot_id snapshots in
        if snapshotSize <=? size disk then Normal ()
        else Throw
               "Disk size must be greater than or equal to the snapshot size"
    | image image_id =>
        let imageSize := size_of image_id images in
        if imageSize <=? size disk then Normal ()
        else Throw "Disk size must be greater than or equal to the image size"
    | _ => Normal ()
    end.

End DiskSize.

End Disk.

(** ** The acting user and [requireRole] (mock-api/msw/util.ts) *)

Definition MSW_USER_COOKIE : string := "msw-user".

(** Look up user by display name in cookie; the first user if the cookie is
    empty or the name is not found.  [None] is [undefined], which is what
    [db.users[0]] is when there is no user. *)
Definition currentUser (users : list User) (cookies : gmap string string)
    : option User :=
  let name := cookies !! MSW_USER_COOKIE in
  match find (λ u, Some (display_name u) = name) users with
  | Some u => Some u
  | None => head users
  end.

(** What [requireRole] can throw: the number 403, or the [TypeError] of
    reading [user.id] when there is no user at all. *)
Inductive RequireError : Type := Forbidden403 | NoUserTypeError.

Definition requireRole (db : Db) (users : list User)
    (cookies : gmap string string)
    (resourceType : DbRoleAssignmentResourceType) (resourceId : string)
    (role : RoleKey) : completion RequireError () :=
  match currentUser users cookies with
  | None => Throw NoUserTypeError
  | Some user =>
      if negb (userHasRole db user resourceType resourceId role)
      then Throw Forbidden403
      else Normal ()
  end.

Section Fleet.
(** [FLEET_ID] is a constant of the API client. *)
Context (FLEET_ID : string).

Definition requireFleetViewer (db : Db) (users : list User)
    (cookies : gmap string string) : completion RequireError () :=
  requireRole db users cookies "fleet" FLEET_ID viewer.

Definition requireFleetCollab (db : Db) (users : list User)
    (cookies : gmap string string) : completion RequireError () :=
  requireRole db users cookies "fleet" FLEET_ID collaborator.

End Fleet.

(** ** Reading an OxQL query (mock-api/msw/util.ts) *)

(** [s[i]] on an array of strings, [None] for [undefined]. *)
Definition getMetricNameFromQuery (query : string) : option string :=
  Ip.split_on " "%char query !! 1%nat.

Module Regex.

(** [\s] on code units below 256: tab to carriage return, space, and the
    no-break space. *)
Definition is_space (a : ascii) : bool :=
  let n := nat_of_ascii a in
  ((9 <=? n) && (n <=? 13))%nat || (n =? 32)%nat || (n =? 160)%nat.

(** A greedy [\s*]: what follows the leading white space. *)
Fixpoint skip_spaces (s : string) : string :=
  match s with
  | String a s' => if is_space a then skip_spaces s' else s
  | EmptyString => EmptyString
  end.

(** A literal: what follows it, if the text starts with it. *)
Fixpoint literal (p s : string) : option string :=
  match p, s with
  | EmptyString, _ => Some s
  | String a p', String b s' => if decide (a = b) then literal p' s' else None
  | String _ _, EmptyString => None
  end.

(** A greedy run of characters other than the double quote, and what
    follows it. *)
Fixpoint unquoted (s : string) : string * string :=
  match s with
  | String a s' =>
      if decide (a = ascii_of_nat 34) then (EmptyString, s)
      else let '(v, rest) := unquoted s' in (String a v, rest)
  | EmptyString => (EmptyString, EmptyString)
  end.

(** The pattern state, white space, two equal signs, white space, and a
    quoted non-empty run without quote, anchored at the start of the text;
    the result is the capture group.  No part of the pattern can give back
    characters to the next, so the greedy reading is the only one. *)
Definition match_here (s : string) : option string :=
  s1 ← literal "state" s;
  s2 ← literal "==" (skip_spaces s1);
  s3 ← literal double_quote (skip_spaces s2);
  let '(v, rest) := unquoted s3 in
  if decide (v = EmptyString) then None
  else _ ← literal double_quote rest; Some v.

(** [String.prototype.match] without the global flag: the match at the
    leftmost position that has one. *)
Fixpoint search (s : string) : option string :=
  match match_here s with
  | Some v => Some v
  | None =>
      match s with
      | EmptyString => None
      | String _ s' => search s'
      end
  end.

(** A text made of white space only. *)
Fixpoint all_spaces (s : string) : bool :=
  match s with
  | String a s' => is_space a && all_spaces s'
  | EmptyString => true
  end.

End Regex.

(** A text in which the character does not occur. *)
Fixpoint without (c : ascii) (s : string) : bool :=
  match s with
  | String a s' => negb (bool_decide (a = c)) && without c s'
  | EmptyString => true
  end.

(** The shape of a text in which the pattern matches at the start. *)
Definition state_filter (w1 w2 v rest : string) : string :=
  "state" +:+ w1 +:+ "==" +:+ w2 +:+ double_quote +:+ v +:+ double_quote
  +:+ rest.

(** The state value is the string in quotes after [state ==] in the query
    string; it might not be present. *)
Definition getCpuStateFromQuery (query : string) : option string :=
  Regex.search query.

(** * Properties *)

(** ** Pagination *)

Section PaginationFacts.
Context {I : Type} `{HasId I}.

Lemma start_index_le tok (l : list I) : (start_index tok l ≤ length l)%nat.
Proof.
  unfold start_index. destruct (truthy_string tok) as [t|]; [|lia].
  destruct (list_find _ l) as [[i x]|] eqn:E; [|lia].
  apply list_find_Some in E as (E & _). apply lookup_lt_Some in E. lia.
Qed.

Lemma slice_inside {A} (l : list A) (k : nat) (e : Z) :
  (k ≤ length l)%nat → Z.of_nat k ≤ e →
  JsArray.slice l (Z.of_nat k) e = take (Z.to_nat e - k) (drop k l).
Proof.
  intros Hk He. unfold JsArray.slice, JsArray.relative.
  destruct (Z.ltb_spec (Z.of_nat k) 0); [lia|].
  destruct (Z.ltb_spec e 0); [lia|].
  rewrite (Z.min_l (Z.of_nat k)) by lia. rewrite Nat2Z.id.
  destruct (Z.le_ge_cases e (Z.of_nat (length l))).
  - rewrite Z.min_l by lia. f_equal. lia.
  - rewrite Z.min_r by lia.
    rewrite !take_ge; [done| |]; rewrite length_drop; lia.
Qed.

Lemma paginated_page (params : PaginateOptions) (l : list I) :
  0 < or_default (limit params) 100 →
  paginated params l
  = Some (page_at (or_default (limit params) 100)
                  (start_index (pageToken params) l) l).
Proof.
  intros HL. unfold paginated.
  set (L := or_default (limit params) 100) in *.
  set (k := start_index (pageToken params) l).
  assert (Hk : (k ≤ length l)%nat) by apply start_index_le.
  assert (Hs : (let s := match truthy_string (pageToken params) with
                | Some t => JsArray.findIndex (λ i, id_of i = t) l
                | None => 0 end in if s <? 0 then 0 else s) = Z.of_nat k).
  { subst k. unfold start_index, JsArray.findIndex.
    destruct (truthy_string _) as [t|]; [|done].
    destruct (list_find _ l) as [[i x]|]; [|done].
    simpl. destruct (Z.ltb_spec (Z.of_nat i) 0); [lia|done]. }
  cbv zeta in Hs. rewrite Hs.
  destruct (Z.ltb_spec (Z.of_nat (length l)) (Z.of_nat k)); [lia|].
  unfold page_at.
  destruct (Z.leb_spec (Z.of_nat (length l)) (L + Z.of_nat k)).
  - unfold JsArray.slice_from. rewrite slice_inside by lia.
    rewrite lookup_ge_None_2 by lia. simpl. do 2 f_equal.
    rewrite !take_ge; [done| |]; rewrite length_drop; lia.
  - unfold JsArray.at_index.
    destruct (Z.ltb_spec (Z.of_nat k + L) 0); [lia|].
    replace (Z.to_nat (Z.of_nat k + L)) with (k + Z.to_nat L)%nat by lia.
    destruct (lookup_lt_is_Some_2 l (k + Z.to_nat L)%nat) as [it Hit]; [lia|].
    rewrite Hit. simpl. do 2 f_equal.
    rewrite slice_inside by lia. f_equal. lia.
Qed.

Lemma start_index_unmatched (t : string) (l : list I) :
  (∀ it, it ∈ l → id_of it ≠ t) → start_index (val t) l = 0%nat.
Proof.
  intros Hno. unfold start_index. destruct (truthy_string _) as [t'|] eqn:Et; [|done].
  assert (t' = t) as ->.
  { simpl in Et. destruct (decide _); congruence. }
  destruct (list_find _ l) as [[i x]|] eqn:E; [|done].
  apply list_find_Some in E as (E & Hx & _).
  exfalso. eapply Hno; [|exact Hx]. eapply list_elem_of_lookup_2; eauto.
Qed.

Lemma start_index_token (l : list I) (k : nat) (it : I) :
  NoDup (id_of <$> l) → l !! k = Some it → id_of it ≠ EmptyString →
  start_index (val (id_of it)) l = k.
Proof.
  intros Hnd Hk Hne. unfold start_index. simpl.
  destruct (decide _); [done|].
  destruct (list_find _ l) as [[i x]|] eqn:E.
  - apply list_find_Some in E as (E & Hx & _).
    eapply NoDup_lookup; [exact Hnd| |].
    + rewrite list_lookup_fmap, E. simpl. by rewrite Hx.
    + by rewrite list_lookup_fmap, Hk.
  - apply list_find_None in E. rewrite Forall_forall in E.
    exfalso. eapply E; [|done]. eapply list_elem_of_lookup_2; eauto.
Qed.
End PaginationFacts.

Section PaginationTheorems.
Context {I : Type} `{HasId I}.

Lemma or_default_pos (lim : Z) : 0 < lim → or_default (val lim) 100 = lim.
Proof. intros. simpl. destruct (Z.eqb_spec lim 0); [lia|done]. Qed.

Lemma fetch_all_from (lim : Z) (l : list I) :
  0 < lim → NoDup (id_of <$> l) → Forall (λ it, id_of it ≠ EmptyString) l →
  ∀ (n k : nat) tok,
    start_index tok l = k → (length l - k < n)%nat →
    ∃ pages,
      fetch_all n (val lim) tok l = Some pages
      ∧ concat (items <$> pages) = drop k l
      ∧ (nextPage <$> last pages) = Some None.
Proof.
  intros Hlim Hnd Hne. induction n as [|n IH]; intros k tok Hk Hn; [lia|].
  simpl. rewrite paginated_page by (simpl limit; rewrite or_default_pos; lia).
  simpl limit. simpl pageToken. rewrite or_default_pos, Hk by done.
  unfold page_at at 1. simpl nextPage.
  destruct (l !! (k + Z.to_nat lim)%nat) as [it|] eqn:Hit; simpl.
  - apply lookup_lt_Some in Hit as Hlt.
    destruct (IH (k + Z.to_nat lim)%nat (val (id_of it))) as (ps & Hps & Hcat & Hlast).
    + apply start_index_token; [done..|].
      rewrite Forall_forall in Hne. apply Hne.
      eapply list_elem_of_lookup_2; eauto.
    + lia.
    + exists (page_at lim k l :: ps). rewrite Hps. split; [done|]. split.
      * rewrite fmap_cons.
        change (concat (?x :: ?xs)) with (x ++ concat xs).
        rewrite Hcat. unfold page_at. simpl items.
        rewrite <- drop_drop. apply take_drop.
      * destruct ps as [|p ps]; [done|]. exact Hlast.
  - apply lookup_ge_None in Hit.
    exists [page_at lim k l]. split; [done|]. split.
    2:{ simpl. rewrite (proj2 (lookup_ge_None l _) Hit). done. }
    simpl. rewrite app_nil_r. apply take_ge. rewrite length_drop. lia.
Qed.

(** C1 (as amended).  For a collection whose ids are pairwise distinct and
    non-empty and a positive limit, the calls chained by the returned tokens
    from a call without token end after at most [length l + 1] calls, the
    last page carries a null token, and the pages in order make up the
    collection, every item once.  A token that matches no id gives the
    result of a call without token. *)
Theorem paginated_chain_visits_each_once (lim : Z) (l : list I) :
  0 < lim →
  NoDup (id_of <$> l) →
  Forall (λ it, id_of it ≠ EmptyString) l →
  visits_each_once lim l
  ∧ (∃ pages, fetch_all (S (length l)) (val lim) undefined l = Some pages
              ∧ concat (items <$> pages) = l)
  ∧ ∀ lim' t, (∀ it, it ∈ l → id_of it ≠ t) →
      paginated {| limit := lim'; pageToken := val t |} l
      = paginated {| limit := lim'; pageToken := undefined |} l.
Proof.
  intros Hlim Hnd Hne.
  destruct (fetch_all_from lim l Hlim Hnd Hne (S (length l)) 0%nat undefined)
    as (ps & Hps & Hcat & Hlast); [done|lia|].
  split; [by exists (S (length l)), ps|].
  split; [by exists ps|].
  intros lim' t Hno. unfold paginated. simpl pageToken.
  simpl truthy_string. destruct (decide _); [done|].
  unfold JsArray.findIndex.
  destruct (list_find _ l) as [[i x]|] eqn:E; [|done].
  apply list_find_Some in E as (E & Hx & _).
  exfalso. eapply Hno; [|exact Hx]. eapply list_elem_of_lookup_2; eauto.
Qed.

End PaginationTheorems.

Lemma paginated_chain_visits_each_once_witness :
  visits_each_once 2 [item "a"; item "b"; item "c"; item "d"; item "e"]
  ∧ (∃ pages,
       fetch_all 6 (val 2) undefined
         [item "a"; item "b"; item "c"; item "d"; item "e"] = Some pages
       ∧ concat (items <$> pages)
         = [item "a"; item "b"; item "c"; item "d"; item "e"])
  ∧ ∀ lim' t,
      (∀ it, it ∈ [item "a"; item "b"; item "c"; item "d"; item "e"] →
             id_of it ≠ t) →
      paginated {| limit := lim'; pageToken := val t |}
        [item "a"; item "b"; item "c"; item "d"; item "e"]
      = paginated {| limit := lim'; pageToken := undefined |}
        [item "a"; item "b"; item "c"; item "d"; item "e"].
Proof.
  apply (paginated_chain_visits_each_once 2
           [item "a"; item "b"; item "c"; item "d"; item "e"]).
  - lia.
  - apply (bool_decide_unpack _). vm_compute. exact Logic.I.
  - apply (bool_decide_unpack _). vm_compute. exact Logic.I.
Defined.

Lemma fetch_all_stuck (fuel : nat) (tok : nullable string) :
  truthy_string tok = None →
  fetch_all fuel (val 1) tok [item "a"; item EmptyString] = None.
Proof.
  revert tok. induction fuel as [|n IH]; intros tok Htok; [done|].
  simpl. unfold paginated. simpl pageToken. rewrite Htok. simpl.
  rewrite IH; done.
Qed.

(** C1, as stated, fails: the ids are distinct and the limit is positive,
    but the token that follows the first page is the empty id, which the
    next call takes for no token, so every call returns the first page
    again and the second item is never reached. *)
Lemma paginated_chain_empty_id_loops :
  NoDup (id_of <$> [item "a"; item EmptyString])
  ∧ 0 < 1
  ∧ paginated {| limit := val 1; pageToken := undefined |}
      [item "a"; item EmptyString]
    = Some {| items := [item "a"]; nextPage := Some EmptyString |}
  ∧ paginated {| limit := val 1; pageToken := val EmptyString |}
      [item "a"; item EmptyString]
    = Some {| items := [item "a"]; nextPage := Some EmptyString |}
  ∧ ¬ visits_each_once 1 [item "a"; item EmptyString].
Proof.
  split; [|split; [lia|split; [done|split; [done|]]]].
  - apply (bool_decide_unpack _). vm_compute. exact Logic.I.
  - intros (fuel & ps & Hps & _). by rewrite fetch_all_stuck in Hps.
Qed.

Section TokenTheorems.
Context {I : Type} `{HasId I}.

(** C5 (as amended).  With distinct non-empty ids and a positive effective
    limit, a non-null token is the id of the item that follows the returned
    slice in the collection, and the call that passes it returns the next
    slice, which begins with the token item itself. *)
Theorem paginated_token_is_next_item
    (params : PaginateOptions) (l : list I) (pg : ResultsPage I) (t : string) :
  0 < or_default (limit params) 100 →
  NoDup (id_of <$> l) →
  Forall (λ it, id_of it ≠ EmptyString) l →
  paginated params l = Some pg →
  nextPage pg = Some t →
  ∃ pre it rest pg',
    l = pre ++ items pg ++ it :: rest
    ∧ t = id_of it
    ∧ paginated {| limit := limit params; pageToken := val t |} l = Some pg'
    ∧ items pg'
      = take (Z.to_nat (or_default (limit params) 100)) (it :: rest).
Proof.
  intros HL Hnd Hne Hpg Ht.
  rewrite paginated_page in Hpg by done. injection Hpg as <-.
  set (L := or_default (limit params) 100) in *.
  set (k := start_index (pageToken params) l) in *.
  simpl in Ht.
  destruct (l !! (k + Z.to_nat L)%nat) as [it|] eqn:Hit; [|done].
  injection Ht as <-.
  exists (take k l), it, (drop (S (k + Z.to_nat L)) l).
  eexists. split; [|split; [done|split]].
  - simpl. rewrite <- (drop_S _ _ _ Hit), <- drop_drop.
    by rewrite take_drop, take_drop.
  - rewrite paginated_page by done. done.
  - simpl. fold L. rewrite start_index_token with (k := (k + Z.to_nat L)%nat).
    + by rewrite (drop_S _ _ _ Hit).
    + done.
    + done.
    + rewrite Forall_forall in Hne. apply Hne.
      eapply list_elem_of_lookup_2; eauto.
Qed.

(** C10.  A limit of 0 or null is replaced by the default of 100, exactly as
    when no limit is given; without token the call returns the first 100
    items (all of them when there are fewer), and the id of the item after
    them as token. *)
Theorem paginated_falsy_limit_is_default (tok : nullable string) (l : list I) :
  paginated {| limit := val 0; pageToken := tok |} l
  = paginated {| limit := undefined; pageToken := tok |} l
  ∧ paginated {| limit := null; pageToken := tok |} l
    = paginated {| limit := undefined; pageToken := tok |} l
  ∧ paginated {| limit := undefined; pageToken := tok |} l
    = paginated {| limit := val 100; pageToken := tok |} l
  ∧ paginated {| limit := val 0; pageToken := undefined |} l
    = Some {| items := take 100 l; nextPage := id_of <$> l !! 100%nat |}.
Proof.
  repeat split; try reflexivity.
  rewrite paginated_page by (simpl; lia). reflexivity.
Qed.

End TokenTheorems.

Lemma paginated_token_is_next_item_witness :
  ∃ pre it rest pg',
    [item "a"; item "b"; item "c"]
    = pre ++ [item "a"] ++ it :: rest
    ∧ "b" = id_of it
    ∧ paginated {| limit := val 1; pageToken := val "b" |}
        [item "a"; item "b"; item "c"] = Some pg'
    ∧ items pg' = take (Z.to_nat 1) (it :: rest).
Proof.
  apply (paginated_token_is_next_item
           {| limit := val 1; pageToken := undefined |}
           [item "a"; item "b"; item "c"]
           {| items := [item "a"]; nextPage := Some "b" |} "b").
  - simpl. lia.
  - apply (bool_decide_unpack _). vm_compute. exact Logic.I.
  - apply (bool_decide_unpack _). vm_compute. exact Logic.I.
  - reflexivity.
  - reflexivity.
Defined.

(** C5, as stated, fails: on three items and limit 1 the first call returns
    the slice [a] with the token "b", which is not the id of the last item
    of that slice, and the call with "b" returns the slice that begins with
    the token item "b", not with the item after it. *)
Lemma paginated_token_not_last_of_page :
  NoDup (id_of <$> [item "a"; item "b"; item "c"])
  ∧ paginated {| limit := val 1; pageToken := undefined |}
      [item "a"; item "b"; item "c"]
    = Some {| items := [item "a"]; nextPage := Some "b" |}
  ∧ paginated {| limit := val 1; pageToken := val "b" |}
      [item "a"; item "b"; item "c"]
    = Some {| items := [item "b"]; nextPage := Some "c" |}
  ∧ ¬ token_is_last_id {| limit := val 1; pageToken := undefined |}
        [item "a"; item "b"; item "c"].
Proof.
  split; [|split; [done|split; [done|]]].
  - apply (bool_decide_unpack _). vm_compute. exact Logic.I.
  - intros Hc.
    specialize (Hc {| items := [item "a"]; nextPage := Some "b" |} "b"
                   eq_refl eq_refl).
    discriminate Hc.
Qed.

(** ** Role resolution *)

Lemma find_Some_elem {A} (P : A → Prop) `{∀ x, Decision (P x)} (l : list A) x :
  find P l = Some x → x ∈ l ∧ P x.
Proof.
  unfold find. destruct (list_find P l) as [[i y]|] eqn:E; [|done].
  intros [= <-]. apply list_find_Some in E as (E & HP & _).
  split; [|done]. eapply list_elem_of_lookup_2; eauto.
Qed.

Lemma find_is_Some {A} (P : A → Prop) `{∀ x, Decision (P x)} (l : list A) x :
  x ∈ l → P x → ∃ y, find P l = Some y ∧ P y.
Proof.
  intros Hx HP. unfold find.
  destruct (list_find P l) as [[i y]|] eqn:E.
  - exists y. split; [done|]. by apply list_find_Some in E as (_ & ? & _).
  - apply list_find_None in E. rewrite Forall_forall in E.
    exfalso. by eapply E.
Qed.

Lemma elem_of_userGroupIds (db : Db) (user : User) (ident : string) :
  ident ∈ userGroupIds db user
  ↔ ∃ gm g,
      gm ∈ groupMemberships db ∧ userId gm = user_id user
      ∧ g ∈ userGroups db ∧ group_id g = groupId gm
      ∧ ident = group_id g.
Proof.
  unfold userGroupIds. rewrite list_elem_of_fmap. split.
  - intros (g & -> & Hg). apply list_elem_of_omap in Hg as (o & Ho & ->).
    apply list_elem_of_fmap in Ho as (gm & Hfind & Hgm).
    apply list_elem_of_filter in Hgm as (Hu & Hgm).
    symmetry in Hfind. apply find_Some_elem in Hfind as (Hin & Hid).
    by exists gm, g.
  - intros (gm & g & Hgm & Hu & Hg & Hid & ->).
    destruct (find_is_Some (λ g', group_id g' = groupId gm) (userGroups db) g)
      as (g' & Hfind & Hid'); [done..|].
    exists g'. split; [congruence|].
    apply list_elem_of_omap. exists (Some g'). split; [|done].
    apply list_elem_of_fmap. exists gm. split; [done|].
    by apply list_elem_of_filter.
Qed.

Lemma elem_of_actorsWithRole (db : Db) rt rid role (ident : string) :
  ident ∈ actorsWithRole db rt rid role ↔ assigned db ident rt rid role.
Proof.
  unfold actorsWithRole, assigned. rewrite list_elem_of_fmap. split.
  - intros (ra & -> & Hra). apply list_elem_of_filter in Hra as ((?&?&?) & ?).
    by exists ra.
  - intros (ra & Hin & ? & ? & ? & ?). exists ra. split; [done|].
    by apply list_elem_of_filter.
Qed.

Lemma userHasRole_true (db : Db) (user : User) rt rid role :
  userHasRole db user rt rid role = true
  ↔ ∃ ident, acts_as db user ident ∧ assigned db ident rt rid role.
Proof.
  unfold userHasRole, some, includes. rewrite existsb_exists. split.
  - intros (ident & Hin & Hact). apply bool_decide_eq_true in Hact.
    exists ident. split; [|by apply elem_of_actorsWithRole].
    apply list_elem_of_In in Hin. apply elem_of_cons in Hin as [->|Hin].
    + by left.
    + right. by apply elem_of_userGroupIds.
  - intros (ident & Hact & Hass). exists ident. split.
    + apply list_elem_of_In, elem_of_cons. destruct Hact as [->|Hg]; [by left|].
      right. by apply elem_of_userGroupIds.
    + apply bool_decide_eq_true. by apply elem_of_actorsWithRole.
Qed.

(** C2.  [userHasRole] is true exactly when an identity the user acts under
    (their own id, or the id of a group they belong to through a membership
    record) has an assignment on exactly the pair (resource type, resource
    id) whose role lies in the closure of the required role.  The closures
    are: viewer by viewer, collaborator and admin; collaborator by
    collaborator and admin; admin by admin alone.  So an admin assignment
    satisfies the three checks on its resource, and a database with no
    assignment on a resource id satisfies no check on it, whatever it
    holds on other ids of that type. *)
Theorem userHasRole_spec (db : Db) (user : User)
    (resourceType : DbRoleAssignmentResourceType) (resourceId : string) :
  (∀ role,
     userHasRole db user resourceType resourceId role = true
     ↔ ∃ ident,
         acts_as db user ident
         ∧ assigned db ident resourceType resourceId role)
  ∧ (∀ held,
       (held ∈ roleOrStronger viewer)
       ∧ (held ∈ roleOrStronger collaborator
          ↔ held = collaborator ∨ held = admin)
       ∧ (held ∈ roleOrStronger admin ↔ held = admin))
  ∧ (∀ ident role,
       acts_as db user ident →
       assigned db ident resourceType resourceId admin →
       userHasRole db user resourceType resourceId role = true)
  ∧ (∀ role,
       (∀ ra, ra ∈ roleAssignments db →
              resource_type ra = resourceType → resource_id ra ≠ resourceId) →
       userHasRole db user resourceType resourceId role = false).
Proof.
  split; [intros role; apply userHasRole_true|]. split; [|split].
  - intros held. destruct held; cbn [roleOrStronger];
      rewrite ?elem_of_cons, ?elem_of_nil; intuition (discriminate || auto).
  - intros ident role Hact (ra & Hin & Ht & Hi & Hid & Hrole).
    apply userHasRole_true. exists ident. split; [done|].
    exists ra. repeat (split; [done|]).
    cbn [roleOrStronger] in Hrole. apply list_elem_of_singleton in Hrole.
    rewrite Hrole. destruct role; cbn [roleOrStronger];
      rewrite ?elem_of_cons; auto.
  - intros role Hother. apply not_true_is_false. intros Htrue.
    apply userHasRole_true in Htrue as (ident & _ & ra & Hin & Ht & Hi & _).
    by eapply Hother.
Qed.

Lemma userHasRole_spec_witness :
  userHasRole demo_db demo_user "project" "p1" viewer = true
  ∧ userHasRole demo_db demo_user "project" "p2" admin = false.
Proof.
  split.
  - apply (proj1 (proj2 (proj2
             (userHasRole_spec demo_db demo_user "project" "p1"))) "g1" viewer).
    + right. exists {| userId := "u1"; groupId := "g1" |}.
      exists {| group_id := "g1"; group_display_name := "web-devs" |}.
      split; [apply list_elem_of_here|]. split; [reflexivity|].
      split; [apply list_elem_of_here|]. split; reflexivity.
    + exists {| resource_type := "project"; resource_id := "p1";
                identity_id := "g1"; role_name := admin |}.
      split; [apply list_elem_of_here|]. split; [reflexivity|].
      split; [reflexivity|]. split; [reflexivity|]. apply list_elem_of_here.
  - apply (proj2 (proj2 (proj2
             (userHasRole_spec demo_db demo_user "project" "p2"))) admin).
    intros ra Hin _. apply list_elem_of_singleton in Hin. rewrite Hin.
    discriminate.
Defined.

(** ** IP ranges *)

Section IpTheorems.
Context (parseIp : string → Ip.ParsedIpType) (IPv4 IPv6 : string → option Z).

#[local] Abbreviation ipToBigInt := (Ip.ipToBigInt parseIp IPv4 IPv6).
#[local] Abbreviation ipInRange := (Ip.ipInRange parseIp IPv4 IPv6).
#[local] Abbreviation ipInAnyRange := (Ip.ipInAnyRange parseIp IPv4 IPv6).
#[local] Abbreviation valid_address := (Ip.valid_address parseIp IPv4 IPv6).
#[local] Abbreviation well_formed := (Ip.well_formed parseIp IPv4 IPv6).

Lemma same_family_iff (a b : string) :
  parseIp a ≠ Ip.error → parseIp b ≠ Ip.error →
  Bool.eqb (bool_decide (parseIp a = Ip.v4)) (bool_decide (parseIp b = Ip.v4))
  = bool_decide (parseIp a = parseIp b).
Proof.
  intros Ha Hb.
  destruct (parseIp a), (parseIp b); try done.
Qed.

Lemma ipInRange_other_family (ip : string) (r : Ip.IpRange) :
  parseIp ip ≠ Ip.error → parseIp (Ip.first r) ≠ Ip.error →
  parseIp ip ≠ parseIp (Ip.first r) →
  ipInRange ip r = Some false.
Proof.
  intros Ha Hb Hne. unfold Ip.ipInRange.
  rewrite same_family_iff by done.
  by rewrite bool_decide_eq_false_2.
Qed.

Lemma ipInRange_well_formed (ip : string) (r : Ip.IpRange) (n : Z) :
  parseIp ip ≠ Ip.error → ipToBigInt ip = Some n → well_formed r →
  ∃ f l,
    ipToBigInt (Ip.first r) = Some f ∧ ipToBigInt (Ip.last r) = Some l
    ∧ ipInRange ip r
      = Some (bool_decide (parseIp ip = parseIp (Ip.first r))
              && (f <=? n) && (n <=? l)).
Proof.
  intros Hip Hn ((Hf & [f Ef]) & (Hl & [l El]) & Hfam).
  exists f, l. split; [done|]. split; [done|].
  unfold Ip.ipInRange. rewrite same_family_iff by done.
  destruct (bool_decide _); [|done]. simpl.
  rewrite Hn, Ef. simpl. destruct (f <=? n); [|done].
  rewrite El. done.
Qed.

(** C4.  For a probe that is a valid address and ranges that are well
    formed (two valid addresses of one family), [ipInAnyRange] returns, and
    returns true exactly when some range has the family of the probe and
    holds the probe's integer value between its first and its last
    endpoint, both included.  A range of the other family does not contain
    the probe: the check returns false and does not throw. *)
Theorem ipInAnyRange_spec (ip : string) (ranges : list Ip.IpRange) :
  valid_address ip →
  Forall well_formed ranges →
  ∃ n b,
    ipToBigInt ip = Some n
    ∧ ipInAnyRange ip ranges = Some b
    ∧ (b = true
       ↔ ∃ r f l,
           r ∈ ranges
           ∧ parseIp (Ip.first r) = parseIp ip
           ∧ ipToBigInt (Ip.first r) = Some f
           ∧ ipToBigInt (Ip.last r) = Some l
           ∧ f ≤ n ≤ l)
    ∧ (∀ r, r ∈ ranges → parseIp (Ip.first r) ≠ parseIp ip →
            ipInRange ip r = Some false).
Proof.
  intros (Hip & [n Hn]) Hwf. exists n.
  induction Hwf as [|r rs Hr Hrs IH].
  - exists false. split; [done|]. split; [done|]. split.
    + split; [done|]. intros (r & _ & _ & Hin & _). by apply elem_of_nil in Hin.
    + intros r Hin. by apply elem_of_nil in Hin.
  - destruct IH as (b & _ & IHb & IHiff & IHother).
    destruct (ipInRange_well_formed ip r n Hip Hn Hr) as (f & l & Ef & El & E).
    unfold Ip.ipInAnyRange in *. cbn [Ip.some_throwing]. rewrite E.
    assert (Hothers : ∀ r', r' ∈ r :: rs → parseIp (Ip.first r') ≠ parseIp ip →
                            ipInRange ip r' = Some false).
    { intros r' Hin Hne. apply elem_of_cons in Hin as [->|Hin]; [|by apply IHother].
      destruct Hr as ((Hf & _) & _).
      apply ipInRange_other_family; [done..|congruence]. }
    destruct (bool_decide (parseIp ip = parseIp (Ip.first r))
              && (f <=? n) && (n <=? l)) eqn:Hb.
    + exists true. split; [done|]. split; [done|]. split; [|done].
      split; [|done]. intros _.
      apply andb_prop in Hb as [Hb Hnl]. apply andb_prop in Hb as [Hfam Hfn].
      apply bool_decide_eq_true in Hfam.
      exists r, f, l. split; [apply list_elem_of_here|].
      repeat split; [done..|lia|lia].
    + exists b. split; [done|]. split; [done|]. split; [|done].
      rewrite IHiff. split.
      * intros (r' & f' & l' & Hin & Hrest). exists r', f', l'.
        split; [by apply list_elem_of_further|done].
      * intros (r' & f' & l' & Hin & Hfam & Ef' & El' & Hle).
        apply elem_of_cons in Hin as [->|Hin]; [|by exists r', f', l'].
        exfalso. assert (f' = f) as -> by congruence.
        assert (l' = l) as -> by congruence.
        rewrite bool_decide_eq_true_2 in Hb by done.
        destruct (Z.leb_spec f n); [|lia]. destruct (Z.leb_spec n l); [|lia].
        done.
Qed.

End IpTheorems.

Lemma ipInAnyRange_spec_witness :
  ∃ n b,
    Ip.ipToBigInt Ip.parse_type Ip.IPv4_value Ip.IPv6_value "10.0.0.5" = Some n
    ∧ Ip.ipInAnyRange Ip.parse_type Ip.IPv4_value Ip.IPv6_value "10.0.0.5"
        [ {| Ip.first := "10.0.0.0"; Ip.last := "10.0.0.10" |} ] = Some b
    ∧ (b = true
       ↔ ∃ r f l,
           r ∈ [ {| Ip.first := "10.0.0.0"; Ip.last := "10.0.0.10" |} ]
           ∧ Ip.parse_type (Ip.first r) = Ip.parse_type "10.0.0.5"
           ∧ Ip.ipToBigInt Ip.parse_type Ip.IPv4_value Ip.IPv6_value
               (Ip.first r) = Some f
           ∧ Ip.ipToBigInt Ip.parse_type Ip.IPv4_value Ip.IPv6_value
               (Ip.last r) = Some l
           ∧ f ≤ n ≤ l)
    ∧ (∀ r, r ∈ [ {| Ip.first := "10.0.0.0"; Ip.last := "10.0.0.10" |} ] →
            Ip.parse_type (Ip.first r) ≠ Ip.parse_type "10.0.0.5" →
            Ip.ipInRange Ip.parse_type Ip.IPv4_value Ip.IPv6_value
              "10.0.0.5" r = Some false).
Proof.
  apply (ipInAnyRange_spec Ip.parse_type Ip.IPv4_value Ip.IPv6_value
           "10.0.0.5" [ {| Ip.first := "10.0.0.0"; Ip.last := "10.0.0.10" |} ]).
  - split; [discriminate|]. vm_compute. eauto.
  - repeat constructor; try discriminate; vm_compute; eauto.
Defined.

(** The two examples of the specification, on the textual parsers. *)
Example ipInAnyRange_examples :
  Ip.ipInAnyRange Ip.parse_type Ip.IPv4_value Ip.IPv6_value "10.0.0.5"
    [ {| Ip.first := "10.0.0.0"; Ip.last := "10.0.0.10" |} ] = Some true
  ∧ Ip.ipInAnyRange Ip.parse_type Ip.IPv4_value Ip.IPv6_value "10.0.0.0"
      [ {| Ip.first := "10.0.0.0"; Ip.last := "10.0.0.10" |} ] = Some true
  ∧ Ip.ipInAnyRange Ip.parse_type Ip.IPv4_value Ip.IPv6_value "10.0.0.10"
      [ {| Ip.first := "10.0.0.0"; Ip.last := "10.0.0.10" |} ] = Some true
  ∧ Ip.ipInAnyRange Ip.parse_type Ip.IPv4_value Ip.IPv6_value "10.0.0.11"
      [ {| Ip.first := "10.0.0.0"; Ip.last := "10.0.0.10" |} ] = Some false
  ∧ Ip.IPv6_value "::a00:5" = Ip.IPv4_value "10.0.0.5"
  ∧ Ip.ipInAnyRange Ip.parse_type Ip.IPv4_value Ip.IPv6_value "::a00:5"
      [ {| Ip.first := "10.0.0.0"; Ip.last := "10.0.0.10" |} ] = Some false.
Proof. vm_compute. repeat split. Qed.

(** ** OxQL result shaping *)

Lemma sumValues_lookup (timeseries : list Timeseries) (arrLen i : nat) :
  (i < arrLen)%nat →
  sumValues timeseries arrLen !! i
  = Some (match omap (λ ts, number_at ts i) timeseries with
          | [] => None
          | defined => Some (sum defined)
          end).
Proof.
  intros Hi. unfold sumValues. rewrite list_lookup_fmap.
  rewrite lookup_seq_lt by done. simpl. f_equal.
  assert (omap as_number ((λ ts, point_at ts i) <$> timeseries)
          = omap (λ ts, number_at ts i) timeseries) as ->.
  { induction timeseries as [|ts tss IH]; [done|].
    rewrite fmap_cons. cbn [omap list_omap]. rewrite IH. done. }
  by destruct (omap _ timeseries).
Qed.

Lemma length_sumValues (timeseries : list Timeseries) (arrLen : nat) :
  length (sumValues timeseries arrLen) = arrLen.
Proof. unfold sumValues. by rewrite length_fmap, length_seq. Qed.

Lemma omap_nil_iff {A B} (f : A → option B) (l : list A) :
  omap f l = [] ↔ ∀ x, x ∈ l → f x = None.
Proof.
  induction l as [|a l IH]; simpl.
  - split; [|done]. intros _ x Hx. by apply elem_of_nil in Hx.
  - destruct (f a) eqn:E.
    + split; [done|]. intros Hall. specialize (Hall a (list_elem_of_here _ _)).
      congruence.
    + rewrite IH. split.
      * intros Hall x Hx. apply elem_of_cons in Hx as [->|Hx]; auto.
      * intros Hall x Hx. apply Hall. by apply list_elem_of_further.
Qed.

(** C3.  The summed series has one entry per index, which is the sum, in
    series order, of exactly the numbers the timeseries have at that index,
    and null exactly when none of them has a number there (zero is not put
    in for absence).  The series 1, null, 3 and 2, 3, null sum to 3, 3, 3,
    and an index absent in both sums to null. *)
Theorem sumValues_spec (timeseries : list Timeseries) (arrLen i : nat) :
  (i < arrLen)%nat →
  length (sumValues timeseries arrLen) = arrLen
  ∧ sumValues timeseries arrLen !! i
    = Some (match omap (λ ts, number_at ts i) timeseries with
            | [] => None
            | defined => Some (sum defined)
            end)
  ∧ (sumValues timeseries arrLen !! i = Some None
     ↔ ∀ ts, ts ∈ timeseries → number_at ts i = None)
  ∧ sumValues [series [Num 1; Null; Num 3]; series [Num 2; Num 3; Null]] 3
    = [Some 3%Q; Some 3%Q; Some 3%Q]
  ∧ sumValues [series [Num 1; Null]; series [Num 2; Null]] 2
    = [Some 3%Q; None].
Proof.
  intros Hi. split; [apply length_sumValues|].
  split; [by apply sumValues_lookup|].
  split; [|split; reflexivity].
  rewrite sumValues_lookup by done. rewrite <- omap_nil_iff.
  destruct (omap _ timeseries); split; congruence.
Qed.

Lemma sumValues_spec_witness :
  sumValues [series [Num 1; Null; Num 3]; series [Num 2; Num 3; Null]] 3
    !! 1%nat = Some (Some 3%Q).
Proof.
  exact (proj1 (proj2
    (sumValues_spec [series [Num 1; Null; Num 3]; series [Num 2; Num 3; Null]]
       3 1 ltac:(lia)))).
Defined.

Lemma imap_summed (timestamps : list Z) (summed : list (option Q)) :
  length summed = length timestamps →
  imap (λ idx t, {| timestamp := t; value := mjoin (summed !! idx) |})
       timestamps
  = zip_with (λ t v, {| timestamp := t; value := v |}) timestamps summed.
Proof.
  intros Hlen. apply list_eq. intros j.
  rewrite list_lookup_imap, lookup_zip_with.
  destruct (timestamps !! j) as [t|] eqn:Et; [|done]. simpl.
  destruct (summed !! j) as [v|] eqn:Ev; [done|].
  apply lookup_lt_Some in Et. apply lookup_ge_None in Ev. lia.
Qed.

Lemma getMeanWithinSeconds_min (start end_ : Z) datapoints :
  5 ≤ getMeanWithinSeconds start end_ datapoints.
Proof. unfold getMeanWithinSeconds. lia. Qed.

(** C6.  For a result with a table that has at least one timeseries,
    [composeOxqlData] returns the pairs of timestamp and summed value from
    index 1 on: the first point is dropped, so on a non-empty axis there is
    one point fewer than timestamps.  [getTimePropsForOxqlQuery(startTime,
    endTime)] returns the start time moved back by twice the mean window,
    the window being in seconds and the time in milliseconds. *)
Theorem composeOxqlData_drops_first
    (data : OxqlQueryResult) (table : OxqlTable) (rest : list OxqlTable)
    (key : string) (ts : Timeseries) (others : list (string * Timeseries)) :
  tables data = table :: rest →
  timeseries table = (key, ts) :: others →
  let timestamps := Points.timestamps (points ts) in
  let summed := sumValues (snd <$> timeseries table) (length timestamps) in
  (∃ r,
     composeOxqlData (Some data) = Some r
     ∧ timeseriesCount r = length (timeseries table)
     ∧ chartData r
       = drop 1 (zip_with (λ t v, {| timestamp := t; value := v |})
                          timestamps summed)
     ∧ (∀ j, chartData r !! j
             = (t ← timestamps !! S j; v ← summed !! S j;
                Some {| timestamp := t; value := v |}))
     ∧ (timestamps ≠ [] → S (length (chartData r)) = length timestamps))
  ∧ ∀ startTime endTime,
      let p := getTimePropsForOxqlQuery startTime endTime None in
      meanWithinSeconds p = getMeanWithinSeconds startTime endTime None
      ∧ adjustedStart p = startTime - 2 * meanWithinSeconds p * 1000
      ∧ adjustedStart p ≤ startTime - 10000.
Proof.
  intros Htab Hts timestamps summed. split.
  - unfold composeOxqlData. rewrite Htab. cbn [head mbind option_bind].
    rewrite bool_decide_eq_false_2
      by (rewrite length_fmap, Hts; discriminate).
    eexists. split; [reflexivity|]. cbn [timeseriesCount chartData].
    split; [by rewrite length_fmap|].
    assert (Hhead : from_option (λ ts0, Points.timestamps (points ts0)) []
                      (head (snd <$> timeseries table)) = timestamps).
    { by rewrite Hts. }
    rewrite Hhead. fold summed.
    assert (Hlen : length summed = length timestamps)
      by apply length_sumValues.
    rewrite imap_summed by done.
    split; [done|]. split.
    + intros j. rewrite lookup_drop, lookup_zip_with. done.
    + intros Hne. rewrite length_drop, length_zip_with, Hlen.
      destruct timestamps; [done|]. simpl. lia.
  - intros startTime endTime p. subst p.
    unfold getTimePropsForOxqlQuery. cbn [meanWithinSeconds adjustedStart].
    split; [done|]. split; [simpl; lia|].
    pose proof (getMeanWithinSeconds_min startTime endTime
                  (Some (default 60%positive None))).
    lia.
Qed.

Lemma composeOxqlData_drops_first_witness :
  ∃ r,
    composeOxqlData
      (Some {| tables :=
                 [ {| name := "vcpu_usage";
                      timeseries :=
                        [ ("a", series [Num 1; Null; Num 3]);
                          ("b", series [Num 2; Num 3; Null]) ] |} ] |})
    = Some r
    ∧ chartData r = [ {| timestamp := 2000; value := Some 3%Q |};
                      {| timestamp := 3000; value := Some 3%Q |} ].
Proof.
  destruct (composeOxqlData_drops_first
    {| tables :=
         [ {| name := "vcpu_usage";
              timeseries :=
                [ ("a", series [Num 1; Null; Num 3]);
                  ("b", series [Num 2; Num 3; Null]) ] |} ] |}
    {| name := "vcpu_usage";
       timeseries :=
         [ ("a", series [Num 1; Null; Num 3]);
           ("b", series [Num 2; Num 3; Null]) ] |}
    [] "a" (series [Num 1; Null; Num 3])
    [ ("b", series [Num 2; Num 3; Null]) ] eq_refl eq_refl)
    as [(r & Hr & _ & Hchart & _) _].
  exists r. split; [exact Hr|]. rewrite Hchart. reflexivity.
Defined.

(** C7.  With no CPUs the data array is empty whatever the input: the
    division is not reached.  With a positive number of CPUs every datum
    keeps its timestamp, a value [v] becomes v * 100 / (5 * 10^9 * nCPUs)
    and a null value stays null. *)
Theorem getUtilizationChartProps_spec
    (chartData : list ChartDatum) (nCPUs : Q) :
  ((nCPUs == 0)%Q → data (getUtilizationChartProps chartData nCPUs) = [])
  ∧ ((0 < nCPUs)%Q →
     Forall2 (scaled_by (λ v, v * 100 / (5 * 10 ^ 9 * nCPUs))%Q)
             chartData (data (getUtilizationChartProps chartData nCPUs))).
Proof.
  unfold getUtilizationChartProps, VCPU_KSTAT_INTERVAL_SEC, Qltb.
  cbn [data]. split.
  - intros Hz.
    destruct (Qle_bool _ 0) eqn:E; [done|].
    exfalso. apply not_true_iff_false in E. apply E.
    apply Qle_bool_iff. rewrite Hz. lra.
  - intros Hpos.
    destruct (Qle_bool _ 0) eqn:E.
    { apply Qle_bool_iff in E. lra. }
    cbn [negb]. apply Forall2_fmap_r, Forall_Forall2_diag, Forall_forall.
    intros d _. split; [done|]. cbn [value].
    destruct (value d) as [v|]; [|done]. simpl.
    apply Qdiv_comp; [reflexivity|]. ring.
Qed.

Lemma getUtilizationChartProps_spec_witness :
  data (getUtilizationChartProps
          [ {| timestamp := 1000; value := Some 2500000000%Q |};
            {| timestamp := 2000; value := None |} ] 0) = []
  ∧ Forall2 (scaled_by (λ v, v * 100 / (5 * 10 ^ 9 * 2))%Q)
      [ {| timestamp := 1000; value := Some 2500000000%Q |};
        {| timestamp := 2000; value := None |} ]
      (data (getUtilizationChartProps
               [ {| timestamp := 1000; value := Some 2500000000%Q |};
                 {| timestamp := 2000; value := None |} ] 2)).
Proof.
  split.
  - apply (proj1 (getUtilizationChartProps_spec _ 0)). reflexivity.
  - apply (proj2 (getUtilizationChartProps_spec _ 2)). reflexivity.
Defined.



(** C9.  When the largest value of the chart data is 2,000,000 the maximum
    exponent is 2, since 1024^2 <= 2,000,000 < 1024^3: the unit is MiB, the
    label "(MiB)", and every value is divided by 1024^2, a null value
    staying null. *)
Theorem getBytesChartProps_MiB (chartData : list ChartDatum) :
  (getLargestValue chartData == 2000000)%Q →
  getMaxExponent (getLargestValue chartData) 1024 = 2
  ∧ 1024 ^ 2 ≤ 2000000 < 1024 ^ 3
  ∧ unitForSet (getBytesChartProps chartData) = Some "MiB"
  ∧ label (getBytesChartProps chartData) = "(MiB)"
  ∧ Forall2 (scaled_by (λ v, v / inject_Z (1024 ^ 2))%Q)
            chartData (data (getBytesChartProps chartData)).
Proof.
  intros Hlargest.
  assert (Hexp : getMaxExponent (getLargestValue chartData) 1024 = 2).
  { unfold getMaxExponent, Qltb.
    assert (Qle_bool 1 (getLargestValue chartData) = true) as ->.
    { apply Qle_bool_iff. rewrite Hlargest. lra. }
    cbn [negb]. rewrite (Qfloor_comp _ _ Hlargest). reflexivity. }
  split; [done|]. split; [lia|].
  unfold getBytesChartProps. cbn [unitForSet label data]. rewrite Hexp.
  split; [reflexivity|]. split; [reflexivity|].
  apply Forall2_fmap_r, Forall_Forall2_diag, Forall_forall.
  intros d _. split; [done|]. cbn [value].
  destruct (value d) as [v|]; [|done]. simpl. reflexivity.
Qed.

Lemma getBytesChartProps_MiB_witness :
  unitForSet (getBytesChartProps
                [ {| timestamp := 1000; value := Some 2000000%Q |};
                  {| timestamp := 2000; value := None |};
                  {| timestamp := 3000; value := Some 1048576%Q |} ])
  = Some "MiB".
Proof.
  apply (getBytesChartProps_MiB
           [ {| timestamp := 1000; value := Some 2000000%Q |};
             {| timestamp := 2000; value := None |};
             {| timestamp := 3000; value := Some 1048576%Q |} ]).
  reflexivity.
Defined.

(** ** Synthetic metrics *)

Lemma Qltb_true (a b : Q) : Qltb a b = true ↔ (a < b)%Q.
Proof.
  unfold Qltb. rewrite negb_true_iff, <- not_true_iff_false, Qle_bool_iff.
  split; [apply Qnot_le_lt|apply Qlt_not_le].
Qed.

Lemma Qltb_false (a b : Q) : Qltb a b = false ↔ (b <= a)%Q.
Proof. unfold Qltb. by rewrite negb_false_iff, Qle_bool_iff. Qed.

Lemma offset_nonneg_when_high (random threshold : Q) :
  (0.72 < random)%Q → (threshold == 1 ∨ threshold == 0.375)%Q →
  0 ≤ (if Qltb random threshold then
         let offset := Qfloor (random * 50)%Q in
         if Qltb random (threshold / 2.5)%Q then offset * -1 else offset
       else 0).
Proof.
  intros Hhi Hth. destruct (Qltb random threshold); [|lia]. cbv zeta.
  assert (Qltb random (threshold / 2.5)%Q = false) as ->.
  { apply Qltb_false. destruct Hth as [-> | ->].
    - setoid_replace (1 / 2.5)%Q with 0.4%Q using relation Qeq
        by reflexivity.
      lra.
    - setoid_replace (0.375 / 2.5)%Q with 0.15%Q using relation Qeq
        by reflexivity.
      lra. }
  change 0 with (Qfloor 0). apply Qfloor_resp_le. lra.
Qed.

Lemma walk_step_inv (valueInterval : option Z) (n : nat) (w : Walk) (i : Z) :
  walk_inv n w → walk_inv (S n) (walk_step valueInterval w i).
Proof.
  intros [Hnn Hst Hlen]. apply Forall_cons in Hnn as Hnn'.
  destruct Hnn' as [Hv He]. unfold walk_step.
  destruct (bool_decide _).
  - destruct (Rando.next (rando w)) as [random rando'].
    split; cbn [latest earlier].
    + apply Forall_cons. split; [|done].
      destruct (Qltb 0.72 random) eqn:Ehi; [|lia].
      apply Qltb_true in Ehi.
      pose proof (offset_nonneg_when_high random
        (if (i <? 250) || (500 <? i) && (i <? 750) then 1%Q else 0.375%Q) Ehi)
        as Hoff.
      cbv zeta in Hoff.
      assert (Hth : ((if (i <? 250) || (500 <? i) && (i <? 750)
                      then 1%Q else 0.375%Q) == 1
                     ∨ (if (i <? 250) || (500 <? i) && (i <? 750)
                        then 1%Q else 0.375%Q) == 0.375)%Q).
      { destruct ((i <? 250) || (500 <? i) && (i <? 750));
          [left|right]; reflexivity. }
      specialize (Hoff Hth). lia.
    + by apply list_elem_of_further.
    + simpl. by rewrite Hlen.
  - split; cbn [latest earlier].
    + by apply Forall_cons.
    + by apply list_elem_of_further.
    + simpl. by rewrite Hlen.
Qed.

Lemma walk_foldl_inv (valueInterval : option Z) (ixs : list Z) :
  ∀ (n : nat) (w : Walk),
    walk_inv n w →
    walk_inv (n + length ixs) (foldl (walk_step valueInterval) w ixs).
Proof.
  induction ixs as [|i ixs IH]; intros n w Hw; simpl.
  - by rewrite Nat.add_0_r.
  - replace (n + S (length ixs))%nat with (S n + length ixs)%nat by lia.
    apply IH. by apply walk_step_inv.
Qed.

Lemma foldl_max_ge (l : list Z) :
  ∀ a, a ≤ foldl Z.max a l ∧ Forall (λ v, v ≤ foldl Z.max a l) l.
Proof.
  induction l as [|x l IH]; intros a; simpl; [split; [lia|done]|].
  destruct (IH (Z.max a x)) as [Ha Hl]. split; [lia|].
  apply Forall_cons. split; [lia|done].
Qed.

Lemma maximum_spec (values : list Z) :
  500 ∈ values →
  ∃ M, maximum values = Some M ∧ 500 ≤ M ∧ Forall (λ v, v ≤ M) values.
Proof.
  destruct values as [|v vs]; intros Hin; [by apply elem_of_nil in Hin|].
  exists (foldl Z.max v vs). destruct (foldl_max_ge vs v) as [Hv Hvs].
  split; [done|]. split.
  - apply elem_of_cons in Hin as [->|Hin]; [done|].
    rewrite Forall_forall in Hvs. by apply Hvs.
  - by apply Forall_cons.
Qed.

Lemma walk_values_spec (valueInterval : option Z) (r : Rando.t)
    (ixs : list Z) :
  let values :=
    walk_values
      (foldl (walk_step valueInterval)
             {| latest := 500; earlier := []; x := 0; rando := r |} ixs) in
  length values = S (length ixs)
  ∧ Forall (λ v, 0 ≤ v) values
  ∧ 500 ∈ values.
Proof.
  cbv zeta.
  destruct (walk_foldl_inv valueInterval ixs 0
              {| latest := 500; earlier := []; x := 0; rando := r |})
    as [Hnn Hst Hlen].
  { split; cbn [latest earlier].
    - apply Forall_cons. split; [lia|apply Forall_nil_2].
    - apply list_elem_of_here.
    - reflexivity. }
  unfold walk_values. split; [|split].
  - rewrite length_reverse. cbn [length]. by rewrite Hlen.
  - by apply Forall_reverse.
  - by apply elem_of_reverse.
Qed.

Lemma raw_values_spec (now : Z) (metricName : SystemMetricName)
    (startTime endTime : Z) :
  let values := raw_values now metricName startTime endTime in
  length values = 1000%nat
  ∧ Forall (λ v, 0 ≤ v) values
  ∧ 500 ∈ values.
Proof.
  unfold raw_values. cbv zeta.
  match goal with
  | |- context [foldl (walk_step ?vi) (Build_Walk _ _ _ ?r) ?ixs] =>
      generalize vi; generalize r; intros r' vi';
      destruct (walk_values_spec vi' r' ixs) as (Hlen & Hnn & Hst)
  end.
  split; [|by split].
  rewrite Hlen, length_fmap, length_seq. reflexivity.
Qed.

Section UtilizationTheorems.
Context (totalCapacity : list SledCaps → Capacity) (GiB TiB : Q).

Lemma normalised_in_range (value M : Z) (cap rf : Q) :
  0 ≤ value ≤ M → 0 < M → (0 <= cap)%Q → (0 <= rf <= 1)%Q →
  (0 <= inject_Z value / inject_Z M * cap * rf <= cap)%Q.
Proof.
  intros [Hv HvM] HM Hcap Hrf.
  assert (HMq : (0 < inject_Z M)%Q) by (change 0%Q with (inject_Z 0); by rewrite <- Zlt_Qlt).
  assert (Hr0 : (0 <= inject_Z value / inject_Z M)%Q).
  { apply Qle_shift_div_l; [done|]. rewrite Qmult_0_l.
    change 0%Q with (inject_Z 0). by rewrite <- Zle_Qle. }
  assert (Hr1 : (inject_Z value / inject_Z M <= 1)%Q).
  { apply Qle_shift_div_r; [done|]. rewrite Qmult_1_l. by rewrite <- Zle_Qle. }
  set (r := (inject_Z value / inject_Z M)%Q) in *.
  assert (H1 : (0 <= r * cap)%Q) by (apply Qmult_le_0_compat; done).
  assert (H2 : (r * cap <= cap)%Q).
  { setoid_replace cap with (1 * cap)%Q using relation Qeq at 2 by ring.
    apply Qmult_le_compat_r; done. }
  split.
  - apply Qmult_le_0_compat; [done|tauto].
  - apply Qle_trans with (r * cap * 1)%Q.
    + rewrite !(Qmult_comm (r * cap)).
      apply Qmult_le_compat_r; [tauto|done].
    + rewrite Qmult_1_r. done.
Qed.

(** C8.  Given a capacity that is not negative and a [Math.random()] in
    [0, 1), [generateUtilization] returns 1000 values, each within
    [0, capacity] for the capacity of the metric kind.  For
    'cpus_provisioned' each value is an integer, the floor of the
    normalised value; for the other kinds the normalised value is returned
    as it is. *)
Theorem generateUtilization_within_capacity
    (now : Z) (rnd : Q) (metricName : SystemMetricName)
    (startTime endTime : Z) (sleds : list Sled) :
  let cap := cap_of totalCapacity GiB TiB metricName sleds in
  let out :=
    generateUtilization totalCapacity GiB TiB now rnd metricName
      startTime endTime sleds in
  (0 <= cap)%Q →
  (0 <= rnd < 1)%Q →
  length out = 1000%nat
  ∧ Forall (λ v, (0 <= v <= cap)%Q) out
  ∧ (metricName = cpus_provisioned →
     Forall (λ v, ∃ z : Z, v = inject_Z z) out)
  ∧ (metricName ≠ cpus_provisioned →
     ∃ currentMax,
       maximum (raw_values now metricName startTime endTime) = Some currentMax
       ∧ out
         = (λ value, (inject_Z value / inject_Z currentMax * cap
                      * (rnd * (1 - 0.33) + 0.33))%Q)
           <$> raw_values now metricName startTime endTime).
Proof.
  intros cap out Hcap Hrnd. subst out. unfold generateUtilization.
  fold cap.
  destruct (raw_values_spec now metricName startTime endTime)
    as (Hlen & Hnn & Hst).
  set (values := raw_values now metricName startTime endTime) in *.
  destruct (maximum_spec values Hst) as (M & HM & HM500 & Hle).
  rewrite HM. cbn [default from_option].
  set (rf := (rnd * (1 - 0.33) + 0.33)%Q).
  assert (Hrf : (0 <= rf <= 1)%Q) by (subst rf; split; lra).
  clearbody values cap rf.
  split; [by rewrite length_fmap|]. split; [|split].
  - apply Forall_fmap, Forall_forall. intros v Hv. unfold compose.
    rewrite Forall_forall in Hnn, Hle.
    pose proof (normalised_in_range v M cap rf
                  (conj (Hnn v Hv) (Hle v Hv)) ltac:(lia) Hcap Hrf) as [H0 H1].
    destruct metricName; [|exact (conj H0 H1)..].
    split.
    + change 0%Q with (inject_Z 0). rewrite <- Zle_Qle.
      change 0 with (Qfloor 0). by apply Qfloor_resp_le.
    + eapply Qle_trans; [apply Qfloor_le|done].
  - intros ->. apply Forall_fmap, Forall_forall. intros v _.
    unfold compose. eauto.
  - intros Hne. exists M. split; [done|].
    apply list_fmap_ext. intros _ v _.
    destruct metricName; [congruence|reflexivity..].
Qed.

End UtilizationTheorems.

Lemma generateUtilization_within_capacity_witness :
  length (generateUtilization demo_capacity 1073741824 1099511627776
            1700000000000 0.5 cpus_provisioned 1699990000000 1700000000000
            [ {| usable_hardware_threads := 128;
                 usable_physical_ram := 1099511627776 |} ]) = 1000%nat
  ∧ Forall (λ v, (0 <= v <= 128)%Q)
      (generateUtilization demo_capacity 1073741824 1099511627776
         1700000000000 0.5 cpus_provisioned 1699990000000 1700000000000
         [ {| usable_hardware_threads := 128;
              usable_physical_ram := 1099511627776 |} ]).
Proof.
  destruct (generateUtilization_within_capacity demo_capacity
              1073741824 1099511627776 1700000000000 0.5 cpus_provisioned
              1699990000000 1700000000000
              [ {| usable_hardware_threads := 128;
                   usable_physical_ram := 1099511627776 |} ])
    as (Hlen & Hall & _).
  - vm_compute. discriminate.
  - split; vm_compute; [discriminate|reflexivity].
  - split; [exact Hlen|]. exact Hall.
Defined.

(** * Further properties *)

(** ** Pagination *)

Section PaginationMore.
Context {I : Type} `{HasId I}.


(** X2.  A negative limit never yields items.  When the start position plus
    the limit falls before the collection the call throws (it reads the id
    of an element that is not there); otherwise it returns an empty page
    whose token is the id of an item before the start position. *)
Theorem paginated_negative_limit (n : Z) (tok : nullable string) (l : list I) :
  n < 0 →
  let s := Z.of_nat (start_index tok l) in
  (s + n < 0 → paginated {| limit := val n; pageToken := tok |} l = None)
  ∧ (0 ≤ s + n →
     ∃ it, l !! Z.to_nat (s + n) = Some it
           ∧ paginated {| limit := val n; pageToken := tok |} l
             = Some {| items := []; nextPage := Some (id_of it) |}).
Proof.
  intros Hn s. unfold paginated. cbn [limit pageToken].
  assert (HL : or_default (val n) 100 = n).
  { simpl. destruct (Z.eqb_spec n 0); [lia|done]. }
  rewrite HL.
  assert (Hk : (start_index tok l ≤ length l)%nat) by apply start_index_le.
  assert (Hs : (let s0 := match truthy_string tok with
                | Some t => JsArray.findIndex (λ i, id_of i = t) l
                | None => 0 end in if s0 <? 0 then 0 else s0) = s).
  { subst s. unfold start_index, JsArray.findIndex.
    destruct (truthy_string _) as [t|]; [|done].
    destruct (list_find _ l) as [[i x]|]; [|done].
    simpl. destruct (Z.ltb_spec (Z.of_nat i) 0); [lia|done]. }
  cbv zeta in Hs. rewrite Hs.
  destruct (Z.ltb_spec (Z.of_nat (length l)) s); [lia|].
  destruct (Z.leb_spec (Z.of_nat (length l)) (n + s)); [lia|].
  unfold JsArray.at_index. split.
  - intros Hneg. destruct (Z.ltb_spec (s + n) 0); [done|lia].
  - intros Hpos. destruct (Z.ltb_spec (s + n) 0); [lia|].
    destruct (lookup_lt_is_Some_2 l (Z.to_nat (s + n))) as [it Hit]; [lia|].
    exists it. split; [done|]. rewrite Hit. do 2 f_equal.
    unfold JsArray.slice, JsArray.relative.
    destruct (Z.ltb_spec s 0); [lia|].
    destruct (Z.ltb_spec (s + n) 0); [lia|].
    replace (Z.to_nat _) with 0%nat by lia. done.
Qed.

End PaginationMore.


Lemma paginated_negative_limit_witness :
  paginated {| limit := val (-1); pageToken := undefined |}
    [item "a"; item "b"; item "c"] = None
  ∧ ∃ it, [item "a"; item "b"; item "c"] !! Z.to_nat (2 + -1) = Some it
          ∧ paginated {| limit := val (-1); pageToken := val "c" |}
              [item "a"; item "b"; item "c"]
            = Some {| items := []; nextPage := Some (id_of it) |}.
Proof.
  split.
  - apply (proj1 (paginated_negative_limit (-1) undefined
                    [item "a"; item "b"; item "c"] ltac:(lia))).
    vm_compute. reflexivity.
  - destruct (proj2 (paginated_negative_limit (-1) (val "c")
                       [item "a"; item "b"; item "c"] ltac:(lia)))
      as (it & Hit & Hpage).
    + vm_compute. discriminate.
    + exists it. split; [|exact Hpage].
      vm_compute in Hit. vm_compute. exact Hit.
Defined.

(** ** [repeat] *)

Lemma pretty_N_go_length (x : N) :
  ∀ s, (String.length s ≤ String.length (pretty_N_go x s))%nat.
Proof.
  induction (N.lt_wf_0 x) as [x _ IH]. intros s.
  destruct (decide (x = 0)%N) as [->|Hx].
  - by rewrite pretty_N_go_0.
  - rewrite pretty_N_go_step by lia.
    etrans; [|apply IH; apply N.div_lt; lia]. simpl. lia.
Qed.

Lemma pretty_nat_nonempty (n : nat) : pretty n ≠ EmptyString.
Proof.
  unfold pretty, pretty_nat, pretty, pretty_N.
  destruct (decide _); [done|].
  rewrite pretty_N_go_step by lia. intros Heq.
  pose proof (pretty_N_go_length (N.of_nat n `div` 10)
                (String (pretty_N_char (N.of_nat n `mod` 10)) EmptyString))
    as Hlen.
  rewrite Heq in Hlen. simpl in Hlen. lia.
Qed.

Lemma append_nonempty_r (s t : string) : t ≠ EmptyString → s +:+ t ≠ EmptyString.
Proof. destruct s; [done|]. discriminate. Qed.

Section RepeatTheorems.
Context {T : Type} `{HasName T}.

Lemma id_of_repeat (obj : T) (n : nat) :
  id_of <$> repeat obj n = (λ i, id_of obj +:+ pretty i) <$> seq 0 n.
Proof.
  unfold repeat. rewrite <- list_fmap_compose. apply list_fmap_ext.
  intros _ i _. simpl. apply id_of_with.
Qed.

(** X3.  [repeat(obj, n)] is a collection of [n] items whose ids are
    pairwise distinct and not empty, so for every positive limit the calls
    to [paginated] chained by the tokens visit each of the copies once, in
    order, and end with a null token. *)
Theorem repeat_paginates (obj : T) (n : nat) (lim : Z) :
  0 < lim →
  length (repeat obj n) = n
  ∧ NoDup (id_of <$> repeat obj n)
  ∧ Forall (λ it, id_of it ≠ EmptyString) (repeat obj n)
  ∧ visits_each_once lim (repeat obj n).
Proof.
  intros Hlim.
  assert (Hlen : length (repeat obj n) = n).
  { unfold repeat. by rewrite length_fmap, length_seq. }
  assert (Hnd : NoDup (id_of <$> repeat obj n)).
  { rewrite id_of_repeat. apply NoDup_fmap_2; [|apply NoDup_seq].
    intros i j Hij. apply String.app_inj in Hij.
    by apply (inj pretty) in Hij. }
  assert (Hne : Forall (λ it, id_of it ≠ EmptyString) (repeat obj n)).
  { apply Forall_forall. intros it Hit.
    assert (Hid : id_of it ∈ id_of <$> repeat obj n)
      by (by apply list_elem_of_fmap_2).
    rewrite id_of_repeat in Hid.
    apply list_elem_of_fmap in Hid as (i & -> & _).
    apply append_nonempty_r, pretty_nat_nonempty. }
  split; [done|]. split; [done|]. split; [done|].
  destruct (fetch_all_from lim (repeat obj n) Hlim Hnd Hne
              (S (length (repeat obj n))) 0%nat undefined)
    as (ps & Hps & Hcat & Hlast); [done|lia|].
  by exists (S (length (repeat obj n))), ps.
Qed.

End RepeatTheorems.

Lemma repeat_paginates_witness :
  length (repeat (item "disk") 7) = 7%nat
  ∧ NoDup (id_of <$> repeat (item "disk") 7)
  ∧ Forall (λ it, id_of it ≠ EmptyString) (repeat (item "disk") 7)
  ∧ visits_each_once 3 (repeat (item "disk") 7).
Proof. apply (repeat_paginates (item "disk") 7 3). lia. Defined.

(** ** Roles and the acting user *)

Lemma roleOrStronger_refl (role : RoleKey) : role ∈ roleOrStronger role.
Proof. destruct role; cbn [roleOrStronger]; rewrite ?elem_of_cons; auto. Qed.

Lemma roleOrStronger_trans (r1 r2 r3 : RoleKey) :
  r1 ∈ roleOrStronger r2 → r2 ∈ roleOrStronger r3 → r1 ∈ roleOrStronger r3.
Proof.
  destruct r1, r2, r3; cbn [roleOrStronger];
    rewrite ?elem_of_cons, ?elem_of_nil; intuition (discriminate || auto).
Qed.

(** X4.  The table [roleOrStronger] is a reflexive and transitive order, and
    [userHasRole] follows it: a user who passes the check for a role passes
    the check, on the same resource, for every role that it is at least as
    strong as. *)
Theorem userHasRole_weaker (db : Db) (user : User)
    (resourceType : DbRoleAssignmentResourceType) (resourceId : string)
    (strong weak : RoleKey) :
  strong ∈ roleOrStronger weak →
  userHasRole db user resourceType resourceId strong = true →
  userHasRole db user resourceType resourceId weak = true.
Proof.
  intros Hrole Hstrong. apply userHasRole_true.
  apply userHasRole_true in Hstrong
    as (ident & Hact & ra & Hin & Ht & Hi & Hid & Hheld).
  exists ident. split; [done|]. exists ra. repeat (split; [done|]).
  by eapply roleOrStronger_trans.
Qed.

Lemma userHasRole_weaker_witness :
  userHasRole demo_db demo_user "project" "p1" collaborator = true.
Proof.
  apply (userHasRole_weaker demo_db demo_user "project" "p1" admin collaborator).
  - cbn [roleOrStronger]. apply list_elem_of_further, list_elem_of_here.
  - reflexivity.
Defined.

(** X5.  Granting never revokes: when every group, membership and role
    assignment of a database is also in a second one, every role check that
    passes on the first passes on the second. *)
Theorem userHasRole_grows (db db' : Db) (user : User)
    (resourceType : DbRoleAssignmentResourceType) (resourceId : string)
    (role : RoleKey) :
  userGroups db ⊆ userGroups db' →
  groupMemberships db ⊆ groupMemberships db' →
  roleAssignments db ⊆ roleAssignments db' →
  userHasRole db user resourceType resourceId role = true →
  userHasRole db' user resourceType resourceId role = true.
Proof.
  intros Hg Hm Hr Hhas. apply userHasRole_true.
  apply userHasRole_true in Hhas
    as (ident & Hact & ra & Hin & Ht & Hi & Hid & Hheld).
  exists ident. split.
  - destruct Hact as [->|(gm & g & Hgm & Hu & Hgin & Hgid & ->)]; [by left|].
    right. exists gm, g. repeat split; auto.
  - exists ra. repeat split; auto.
Qed.

Lemma userHasRole_grows_witness :
  userHasRole
    {| userGroups := userGroups demo_db;
       groupMemberships := groupMemberships demo_db;
       roleAssignments :=
         {| resource_type := "fleet"; resource_id := "f";
            identity_id := "u1"; role_name := viewer |}
         :: roleAssignments demo_db |}
    demo_user "project" "p1" admin = true.
Proof.
  apply (userHasRole_grows demo_db _ demo_user "project" "p1" admin).
  - intros g Hg. exact Hg.
  - intros g Hg. exact Hg.
  - intros ra Hra. apply list_elem_of_further. exact Hra.
  - reflexivity.
Defined.

Lemma currentUser_cases (users : list User) (cookies : gmap string string) :
  (∃ u, currentUser users cookies = Some u ∧ u ∈ users
        ∧ cookies !! MSW_USER_COOKIE = Some (display_name u))
  ∨ (currentUser users cookies = head users
     ∧ ∀ u, u ∈ users → cookies !! MSW_USER_COOKIE ≠ Some (display_name u)).
Proof.
  unfold currentUser.
  destruct (find _ users) as [u|] eqn:E.
  - left. apply find_Some_elem in E as [Hin Hname]. by exists u.
  - right. split; [done|]. intros u Hin Hname.
    destruct (find_is_Some (λ u, Some (display_name u)
                                 = cookies !! MSW_USER_COOKIE) users u)
      as (u' & Hfind & _); [done|done|].
    congruence.
Qed.

Lemma currentUser_None (users : list User) (cookies : gmap string string) :
  currentUser users cookies = None ↔ users = [].
Proof.
  destruct (currentUser_cases users cookies)
    as [(u & Hu & Hin & Hname)|[Hhead Hnone]].
  - rewrite Hu. split; [done|]. intros ->. by apply elem_of_nil in Hin.
  - rewrite Hhead. by destruct users.
Qed.

(** X6.  The acting user is a user of the database whenever there is one:
    the first whose display name is the value of the [msw-user] cookie, and
    the first user of all when the cookie is absent or names nobody.  It is
    undefined only for a database without users. *)
Theorem currentUser_spec (users : list User) (cookies : gmap string string) :
  (currentUser users cookies = None ↔ users = [])
  ∧ (∀ u, currentUser users cookies = Some u → u ∈ users)
  ∧ (∀ u, u ∈ users →
          cookies !! MSW_USER_COOKIE = Some (display_name u) →
          ∃ u', currentUser users cookies = Some u'
                ∧ display_name u' = display_name u)
  ∧ ((∀ u, u ∈ users →
           cookies !! MSW_USER_COOKIE ≠ Some (display_name u)) →
     currentUser users cookies = head users).
Proof.
  split; [apply currentUser_None|].
  destruct (currentUser_cases users cookies)
    as [(u & Hu & Hin & Hname)|[Hhead Hnone]].
  - split; [|split].
    + intros u' Hu'. congruence.
    + intros u' Hin' Hname'. exists u. split; [done|]. congruence.
    + intros Hnone. by destruct (Hnone u Hin).
  - split; [|split].
    + intros u Hu. rewrite Hhead in Hu. destruct users; [done|].
      injection Hu as ->. apply list_elem_of_here.
    + intros u Hin Hname. by destruct (Hnone u Hin).
    + done.
Qed.

Lemma currentUser_spec_witness :
  currentUser [demo_user; {| user_id := "u2"; display_name := "Hans" |}]
    {[ MSW_USER_COOKIE := "Nobody" ]}
  = Some demo_user.
Proof.
  apply (proj2 (proj2 (proj2
    (currentUser_spec
       [demo_user; {| user_id := "u2"; display_name := "Hans" |}]
       {[ MSW_USER_COOKIE := "Nobody" ]})))).
  intros u Hu. rewrite lookup_singleton_eq.
  apply elem_of_cons in Hu as [->|Hu]; [discriminate|].
  apply list_elem_of_singleton in Hu as ->. discriminate.
Defined.

(** X7.  [requireRole] returns exactly when there is an acting user and the
    role check passes for them; it throws 403 when the check fails, and
    fails on the missing user only for a database without users.  A request
    that passes [requireFleetCollab] passes [requireFleetViewer]. *)
Theorem requireRole_spec (db : Db) (users : list User)
    (cookies : gmap string string)
    (resourceType : DbRoleAssignmentResourceType) (resourceId : string)
    (role : RoleKey) (FLEET_ID : string) :
  (requireRole db users cookies resourceType resourceId role = Normal ()
   ↔ ∃ user, currentUser users cookies = Some user
             ∧ userHasRole db user resourceType resourceId role = true)
  ∧ (requireRole db users cookies resourceType resourceId role
     = Throw Forbidden403
     ↔ ∃ user, currentUser users cookies = Some user
               ∧ userHasRole db user resourceType resourceId role = false)
  ∧ (requireRole db users cookies resourceType resourceId role
     = Throw NoUserTypeError ↔ users = [])
  ∧ (requireFleetCollab FLEET_ID db users cookies = Normal () →
     requireFleetViewer FLEET_ID db users cookies = Normal ()).
Proof.
  assert (Hreq : ∀ rt rid r,
    requireRole db users cookies rt rid r = Normal ()
    ↔ ∃ user, currentUser users cookies = Some user
              ∧ userHasRole db user rt rid r = true).
  { intros rt rid r. unfold requireRole.
    destruct (currentUser users cookies) as [u|].
    - destruct (userHasRole db u rt rid r) eqn:E; cbn [negb].
      + split; [intros _; by exists u|done].
      + split; [done|]. intros (u' & [= <-] & Hu'). congruence.
    - split; [done|]. by intros (u' & Hu' & _). }
  split; [apply Hreq|]. split; [|split].
  - unfold requireRole. destruct (currentUser users cookies) as [u|].
    + destruct (userHasRole db u resourceType resourceId role) eqn:E;
        cbn [negb].
      * split; [done|]. intros (u' & [= <-] & Hu'). congruence.
      * split; [intros _; by exists u|done].
    + split; [done|]. by intros (u' & Hu' & _).
  - pose proof (currentUser_None users cookies) as Hnone.
    unfold requireRole. destruct (currentUser users cookies) as [u|].
    + destruct (negb _); split; try done; intros Hnil;
        apply Hnone in Hnil; done.
    + split; [intros _; by apply Hnone|done].
  - unfold requireFleetCollab, requireFleetViewer. rewrite !Hreq.
    intros (u & Hu & Hhas). exists u. split; [done|].
    apply userHasRole_true.
    apply userHasRole_true in Hhas
      as (ident & Hact & ra & Hin & Ht & Hi & Hid & Hheld).
    exists ident. split; [done|]. exists ra. repeat (split; [done|]).
    eapply roleOrStronger_trans; [exact Hheld|].
    cbn [roleOrStronger]. apply list_elem_of_further, list_elem_of_here.
Qed.

Lemma requireRole_spec_witness :
  requireFleetViewer "fleet-id"
    {| userGroups := []; groupMemberships := [];
       roleAssignments :=
         [ {| resource_type := "fleet"; resource_id := "fleet-id";
              identity_id := "u1"; role_name := collaborator |} ] |}
    [demo_user] ∅ = Normal ().
Proof.
  apply (proj2 (proj2 (proj2
    (requireRole_spec
       {| userGroups := []; groupMemberships := [];
          roleAssignments :=
            [ {| resource_type := "fleet"; resource_id := "fleet-id";
                 identity_id := "u1"; role_name := collaborator |} ] |}
       [demo_user] ∅ "fleet" "fleet-id" viewer "fleet-id")))).
  reflexivity.
Defined.

(** ** The length of an IP range *)

Section IpLengthTheorems.
Context (parseIp : string → Ip.ParsedIpType) (IPv4 IPv6 : string → option Z).

(** X8.  For a well-formed range [ipRangeLen] is last - first + 1, and a
    valid probe of the family of the range is in the range exactly when its
    offset from the first address is at least 0 and below that length; so a
    range from an address to itself has length 1 and holds that address. *)
Theorem ipRangeLen_counts (ip : string) (r : Ip.IpRange) :
  Ip.valid_address parseIp IPv4 IPv6 ip →
  Ip.well_formed parseIp IPv4 IPv6 r →
  parseIp ip = parseIp (Ip.first r) →
  ∃ n f len,
    Ip.ipToBigInt parseIp IPv4 IPv6 ip = Some n
    ∧ Ip.ipToBigInt parseIp IPv4 IPv6 (Ip.first r) = Some f
    ∧ Ip.ipRangeLen parseIp IPv4 IPv6 r = Some len
    ∧ (Ip.ipInRange parseIp IPv4 IPv6 ip r = Some true ↔ 0 ≤ n - f < len)
    ∧ (Ip.ipInRange parseIp IPv4 IPv6 ip r = Some false
       ↔ ¬ 0 ≤ n - f < len)
    ∧ (Ip.last r = Ip.first r → len = 1).
Proof.
  intros (Hip & [n Hn]) Hwf Hfam.
  destruct (ipInRange_well_formed parseIp IPv4 IPv6 ip r n Hip Hn Hwf)
    as (f & l & Ef & El & E).
  exists n, f, (l - f + 1). split; [done|]. split; [done|].
  split; [by unfold Ip.ipRangeLen; rewrite El, Ef|].
  rewrite E, bool_decide_eq_true_2 by done. cbn [andb].
  split; [|split].
  - destruct (Z.leb_spec f n), (Z.leb_spec n l); cbn [andb];
      split; try done; intros; lia.
  - destruct (Z.leb_spec f n), (Z.leb_spec n l); cbn [andb];
      split; try done; intros; lia.
  - intros Hsame. rewrite Hsame in El. assert (l = f) by congruence. lia.
Qed.

End IpLengthTheorems.

Lemma ipRangeLen_counts_witness :
  ∃ n f len,
    Ip.ipToBigInt Ip.parse_type Ip.IPv4_value Ip.IPv6_value "fd00::5" = Some n
    ∧ Ip.ipToBigInt Ip.parse_type Ip.IPv4_value Ip.IPv6_value "fd00::1"
      = Some f
    ∧ Ip.ipRangeLen Ip.parse_type Ip.IPv4_value Ip.IPv6_value
        {| Ip.first := "fd00::1"; Ip.last := "fd00::ff" |} = Some len
    ∧ (Ip.ipInRange Ip.parse_type Ip.IPv4_value Ip.IPv6_value "fd00::5"
         {| Ip.first := "fd00::1"; Ip.last := "fd00::ff" |} = Some true
       ↔ 0 ≤ n - f < len)
    ∧ (Ip.ipInRange Ip.parse_type Ip.IPv4_value Ip.IPv6_value "fd00::5"
         {| Ip.first := "fd00::1"; Ip.last := "fd00::ff" |} = Some false
       ↔ ¬ 0 ≤ n - f < len)
    ∧ ("fd00::ff" = "fd00::1" → len = 1).
Proof.
  apply (ipRangeLen_counts Ip.parse_type Ip.IPv4_value Ip.IPv6_value
           "fd00::5" {| Ip.first := "fd00::1"; Ip.last := "fd00::ff" |}).
  - split; [discriminate|]. vm_compute. eauto.
  - repeat split; try discriminate; vm_compute; eauto.
  - reflexivity.
Defined.

(** ** The generator and the synthetic series *)

Lemma to_double_small (n : Z) : Z.abs n < 2 ^ 53 → to_double n = n.
Proof.
  intros Hn. unfold to_double.
  assert (He : Z.max 0 (Z.log2 (Z.abs n) - 52) = 0).
  { destruct (decide (Z.abs n = 0)) as [->|Hz]; [done|].
    assert (Z.log2 (Z.abs n) < 53) by (apply Z.log2_lt_pow2; lia). lia. }
  rewrite He. change (2 ^ 0) with 1.
  rewrite Z.div_1_r, Z.mod_1_r. simpl. lia.
Qed.

Lemma to_double_nonneg (n : Z) : 0 ≤ n → 0 ≤ to_double n.
Proof.
  intros Hn. unfold to_double.
  set (e := Z.max 0 (Z.log2 (Z.abs n) - 52)).
  assert (Hg : 0 < 2 ^ e) by (apply Z.pow_pos_nonneg; lia).
  assert (0 ≤ n / 2 ^ e) by (apply Z.div_pos; lia).
  repeat case_match; nia.
Qed.

(** X9.  From a state that is not negative (with a multiplier and an
    increment that are not negative and a positive modulus) [next] returns
    a number in [0, 1) and leaves a state in [0, m), the parameters
    unchanged; when the product stays below 2^53 no rounding takes place
    and the new state is (a * seed + c) mod m. *)
Theorem Rando_next_range (r : Rando.t) :
  0 ≤ Rando.seed r → 0 ≤ Rando.a r → 0 ≤ Rando.c r → 0 < Rando.m r →
  (0 <= (Rando.next r).1 < 1)%Q
  ∧ 0 ≤ Rando.seed (Rando.next r).2 < Rando.m r
  ∧ Rando.a (Rando.next r).2 = Rando.a r
  ∧ Rando.c (Rando.next r).2 = Rando.c r
  ∧ Rando.m (Rando.next r).2 = Rando.m r
  ∧ (Rando.a r * Rando.seed r + Rando.c r < 2 ^ 53 →
     Rando.seed (Rando.next r).2
     = (Rando.a r * Rando.seed r + Rando.c r) mod Rando.m r).
Proof.
  intros Hs Ha Hc Hm. unfold Rando.next. cbn [fst snd Rando.seed Rando.a
    Rando.c Rando.m].
  set (t := to_double (to_double (Rando.a r * Rando.seed r) + Rando.c r)).
  assert (Ht : 0 ≤ t).
  { apply to_double_nonneg.
    assert (0 ≤ to_double (Rando.a r * Rando.seed r))
      by (apply to_double_nonneg; nia).
    lia. }
  rewrite Z.rem_mod_nonneg by done.
  pose proof (Z.mod_pos_bound t (Rando.m r) Hm) as [Hlo Hhi].
  assert (Hmq : (0 < inject_Z (Rando.m r))%Q)
    by (change 0%Q with (inject_Z 0); by rewrite <- Zlt_Qlt).
  split; [|split; [done|repeat split]].
  - split.
    + apply Qle_shift_div_l; [done|]. rewrite Qmult_0_l.
      change 0%Q with (inject_Z 0). by rewrite <- Zle_Qle.
    + apply Qlt_shift_div_r; [done|]. rewrite Qmult_1_l.
      by rewrite <- Zlt_Qlt.
  - intros Hsmall. subst t.
    rewrite (to_double_small (Rando.a r * Rando.seed r)) by nia.
    rewrite to_double_small by nia. done.
Qed.

Lemma Rando_next_range_witness :
  (0 <= (Rando.next (Rando.new 1700000000015)).1 < 1)%Q
  ∧ 0 ≤ Rando.seed (Rando.next (Rando.new 1700000000015)).2 < 2 ^ 32.
Proof.
  destruct (Rando_next_range (Rando.new 1700000000015))
    as (Hx & Hseed & _); [simpl; lia..|].
  split; [exact Hx|exact Hseed].
Defined.

Lemma foldl_max_elem (l : list Z) : ∀ a, foldl Z.max a l ∈ a :: l.
Proof.
  induction l as [|x l IH]; intros a; simpl; [apply list_elem_of_here|].
  specialize (IH (Z.max a x)). apply elem_of_cons in IH as [->|IH].
  - destruct (Z.max_spec a x) as [[_ ->]|[_ ->]];
      [apply list_elem_of_further|]; apply list_elem_of_here.
  - by do 2 apply list_elem_of_further.
Qed.

Lemma maximum_elem (values : list Z) (M : Z) :
  maximum values = Some M → M ∈ values.
Proof.
  destruct values as [|v vs]; [done|]. intros [= <-]. apply foldl_max_elem.
Qed.

Lemma walk_flat (valueInterval : option Z) (ixs : list Z) :
  ∀ (w : Walk) (k : nat),
    latest w = 500 → earlier w = replicate k 500 →
    (∀ j, x w ≤ j < x w + Z.of_nat (length ixs) → Some j ≠ valueInterval) →
    walk_values (foldl (walk_step valueInterval) w ixs)
    = replicate (S (k + length ixs)) 500.
Proof.
  induction ixs as [|i ixs IH]; intros w k Hl He Hx.
  - simpl. unfold walk_values. rewrite Hl, He, Nat.add_0_r.
    change (500 :: replicate k 500) with (replicate (S k) 500).
    apply reverse_replicate.
  - cbn [foldl]. cbn [length] in Hx.
    assert (Hstep : walk_step valueInterval w i
                    = {| latest := 500; earlier := 500 :: earlier w;
                         x := x w + 1; rando := rando w |}).
    { unfold walk_step. rewrite bool_decide_eq_false_2; [by rewrite Hl|].
      apply Hx. lia. }
    rewrite Hstep. rewrite (IH _ (S k)); cbn [latest earlier x].
    + f_equal. simpl. lia.
    + done.
    + by rewrite He.
    + intros j Hj. apply Hx. lia.
Qed.

Section SeriesTheorems.
Context (totalCapacity : list SledCaps → Capacity) (GiB TiB : Q).

(** X10.  When the adjusted start and the end of the range are at most 900
    seconds apart the walk never moves: all 1000 returned values are the
    same, the capacity times the random factor (its floor for
    'cpus_provisioned'). *)
Theorem generateUtilization_flat_short_range
    (now : Z) (rnd : Q) (metricName : SystemMetricName)
    (startTime endTime : Z) (sleds : list Sled) :
  Z.abs (differenceInSeconds
           (Z.max startTime (now - 1000 * 60 * 60 * 24 * 90)) endTime)
  ≤ 900 →
  let peak :=
    (cap_of totalCapacity GiB TiB metricName sleds
     * (rnd * (1 - 0.33) + 0.33))%Q in
  ∃ c,
    generateUtilization totalCapacity GiB TiB now rnd metricName
      startTime endTime sleds = replicate 1000 c
    ∧ (c == match metricName with
            | cpus_provisioned => inject_Z (Qfloor peak)
            | _ => peak
            end)%Q.
Proof.
  intros Hdiff peak.
  assert (Hraw : raw_values now metricName startTime endTime
                 = replicate 1000 500).
  { unfold raw_values. cbv zeta.
    set (diff := Z.abs _) in *.
    match goal with
    | |- context [foldl (walk_step ?vi) ?w0 ?ixs] =>
        rewrite (walk_flat vi ixs w0 0)
    end.
    - by rewrite length_fmap, length_seq.
    - done.
    - done.
    - cbn [x]. rewrite length_fmap, length_seq. intros j Hj.
      destruct (Z.eqb_spec diff 0); [done|].
      intros Hvi. apply (inj Some) in Hvi.
      assert (Hpos : 0 < diff) by (subst diff; lia).
      assert (Hq : (1000 <= 1000 / (inject_Z diff / 900))%Q).
      { assert (Hd : (0 < inject_Z diff / 900)%Q).
        { apply Qlt_shift_div_l; [reflexivity|]. rewrite Qmult_0_l.
          change 0%Q with (inject_Z 0). by rewrite <- Zlt_Qlt. }
        apply Qle_shift_div_l; [done|].
        assert (inject_Z diff <= 900)%Q
          by (change 900%Q with (inject_Z 900); by rewrite <- Zle_Qle).
        unfold Qdiv at 1.
        setoid_replace (/ 900)%Q with (1 # 900)%Q using relation Qeq
          by reflexivity.
        lra. }
      apply Qfloor_resp_le in Hq. change (Qfloor 1000) with 1000 in Hq.
      lia. }
  unfold generateUtilization. rewrite Hraw.
  change (maximum (replicate 1000 500)) with (Some 500).
  cbn [default from_option id]. rewrite fmap_replicate.
  eexists. split; [reflexivity|]. fold peak.
  assert (Hone : (inject_Z 500 / inject_Z 500 == 1)%Q) by reflexivity.
  assert (Hpeak : (inject_Z 500 / inject_Z 500
                   * cap_of totalCapacity GiB TiB metricName sleds
                   * (rnd * (1 - 0.33) + 0.33) == peak)%Q).
  { subst peak. rewrite Hone. ring. }
  destruct metricName; [|exact Hpeak..].
  by rewrite (Qfloor_comp _ _ Hpeak).
Qed.

(** X11.  For a capacity that is not negative and a [Math.random()] in
    [0, 1), the largest value of the series is the capacity times the
    random factor (its floor for 'cpus_provisioned'): some value equals it
    and none exceeds it, and it lies between 33% of the capacity and the
    capacity. *)
Theorem generateUtilization_peak
    (now : Z) (rnd : Q) (metricName : SystemMetricName)
    (startTime endTime : Z) (sleds : list Sled) :
  let cap := cap_of totalCapacity GiB TiB metricName sleds in
  let peak := (cap * (rnd * (1 - 0.33) + 0.33))%Q in
  let top :=
    match metricName with
    | cpus_provisioned => inject_Z (Qfloor peak)
    | _ => peak
    end in
  let out :=
    generateUtilization totalCapacity GiB TiB now rnd metricName
      startTime endTime sleds in
  (0 <= cap)%Q →
  (0 <= rnd < 1)%Q →
  (∃ v, v ∈ out ∧ (v == top)%Q)
  ∧ Forall (λ v, (v <= top)%Q) out
  ∧ (0.33 * cap <= peak <= cap)%Q.
Proof.
  intros cap peak top out Hcap Hrnd. subst out. unfold generateUtilization.
  fold cap.
  destruct (raw_values_spec now metricName startTime endTime)
    as (Hlen & Hnn & Hst).
  set (values := raw_values now metricName startTime endTime) in *.
  destruct (maximum_spec values Hst) as (M & HM & HM500 & Hle).
  rewrite HM. cbn [default from_option id].
  apply maximum_elem in HM as HMin.
  set (rf := (rnd * (1 - 0.33) + 0.33)%Q) in *.
  assert (Hrf : (0.33 <= rf <= 1)%Q) by (subst rf; split; lra).
  assert (HMq : (0 < inject_Z M)%Q)
    by (change 0%Q with (inject_Z 0); rewrite <- Zlt_Qlt; lia).
  assert (Hscale : ∀ v, v ≤ M →
            (inject_Z v / inject_Z M * cap * rf <= peak)%Q).
  { intros v Hv. subst peak.
    assert (Hr1 : (inject_Z v / inject_Z M <= 1)%Q).
    { apply Qle_shift_div_r; [done|]. rewrite Qmult_1_l.
      by rewrite <- Zle_Qle. }
    assert (Hcr : (0 <= cap * rf)%Q)
      by (apply Qmult_le_0_compat; [done|lra]).
    rewrite <- Qmult_assoc.
    setoid_replace (cap * rf)%Q with (1 * (cap * rf))%Q
      using relation Qeq at 2 by ring.
    by apply Qmult_le_compat_r. }
  assert (Htop : (inject_Z M / inject_Z M * cap * rf == peak)%Q).
  { subst peak. field. intros H0. rewrite H0 in HMq. by apply Qlt_irrefl in HMq. }
  clearbody values cap rf. subst top peak.
  split; [|split].
  - eexists. split.
    + apply list_elem_of_fmap. exists M. split; [reflexivity|done].
    + cbv beta. destruct metricName; [|exact Htop..].
      by rewrite (Qfloor_comp _ _ Htop).
  - apply Forall_fmap, Forall_forall. intros v Hv. unfold compose.
    rewrite Forall_forall in Hle. specialize (Hscale v (Hle v Hv)).
    destruct metricName; [|exact Hscale..].
    rewrite <- Zle_Qle. by apply Qfloor_resp_le.
  - split.
    + rewrite (Qmult_comm cap). apply Qmult_le_compat_r; tauto.
    + setoid_replace cap with (1 * cap)%Q using relation Qeq at 2 by ring.
      rewrite (Qmult_comm cap). apply Qmult_le_compat_r; tauto.
Qed.

End SeriesTheorems.

Lemma generateUtilization_flat_short_range_witness :
  ∃ c,
    generateUtilization demo_capacity 1073741824 1099511627776
      1700000000000 0.5 ram_provisioned 1699999400000 1700000000000
      [ {| usable_hardware_threads := 128;
           usable_physical_ram := 1099511627776 |} ]
    = replicate 1000 c
    ∧ (c == cap_of demo_capacity 1073741824 1099511627776 ram_provisioned
               [ {| usable_hardware_threads := 128;
                    usable_physical_ram := 1099511627776 |} ]
            * (0.5 * (1 - 0.33) + 0.33))%Q.
Proof.
  apply (generateUtilization_flat_short_range demo_capacity
           1073741824 1099511627776 1700000000000 0.5 ram_provisioned
           1699999400000 1700000000000
           [ {| usable_hardware_threads := 128;
                usable_physical_ram := 1099511627776 |} ]).
  vm_compute. discriminate.
Defined.

Lemma generateUtilization_peak_witness :
  ∃ v,
    v ∈ generateUtilization demo_capacity 1073741824 1099511627776
          1700000000000 0.5 cpus_provisioned 1699990000000 1700000000000
          [ {| usable_hardware_threads := 128;
               usable_physical_ram := 1099511627776 |} ]
    ∧ (v == 85)%Q.
Proof.
  destruct (generateUtilization_peak demo_capacity
              1073741824 1099511627776 1700000000000 0.5 cpus_provisioned
              1699990000000 1700000000000
              [ {| usable_hardware_threads := 128;
                   usable_physical_ram := 1099511627776 |} ])
    as ((v & Hin & Hv) & _).
  - vm_compute. discriminate.
  - split; vm_compute; [discriminate|reflexivity].
  - exists v. split; [exact Hin|]. rewrite Hv. reflexivity.
Defined.

(** ** [handleMetrics] *)

Section HandleMetricsTheorems.
Context {Measurement : Type}
        (genI64Data : list Q → Z → Z → list Measurement)
        (totalCapacity : list SledCaps → Capacity) (GiB TiB : Q).

(** X12.  [handleMetrics] returns no items when the window ends at or before
    its start, which cannot happen when the start is left out: the window
    is then the 24 hours up to its end.  Otherwise the items are the
    generated measurements, reversed for a descending order, and a limit
    that is not negative keeps the first that many: at most [n] items, and
    for a descending order the last [n] generated ones, latest first. *)
Theorem handleMetrics_spec (now now' : Z) (rnd : Q) (sleds : list Sled)
    (metricName : SystemMetricName) (query : MetricQuery.t) :
  let w := getStartAndEndTime now (MetricQuery.startTime query)
                              (MetricQuery.endTime query) in
  let generated :=
    genI64Data
      (generateUtilization totalCapacity GiB TiB now' rnd metricName
         (window_start w) (window_end w) sleds)
      (window_start w) (window_end w) in
  let result :=
    handleMetrics genI64Data totalCapacity GiB TiB now now' rnd sleds
      metricName query in
  (window_end w ≤ window_start w → result = [])
  ∧ (MetricQuery.startTime query = None →
     window_end w - window_start w = 86400000)
  ∧ (window_start w < window_end w →
     ∀ n, MetricQuery.limit query = val n → 0 ≤ n →
       Z.of_nat (length result) ≤ n
       ∧ (MetricQuery.order query ≠ Some descending →
          result = take (Z.to_nat n) generated)
       ∧ (MetricQuery.order query = Some descending →
          result
          = reverse (drop (length generated - Z.to_nat n) generated)))
  ∧ (window_start w < window_end w →
     MetricQuery.limit query = undefined ∨ MetricQuery.limit query = null →
     result = match MetricQuery.order query with
              | Some descending => reverse generated
              | _ => generated
              end).
Proof.
  intros w generated result. subst result. unfold handleMetrics.
  fold w. fold generated. clearbody generated.
  split; [|split; [|split]].
  - intros Hle. destruct (Z.leb_spec (window_end w) (window_start w)); [done|lia].
  - intros Hnone. subst w. unfold getStartAndEndTime. rewrite Hnone.
    cbn [default from_option window_start window_end]. unfold subHours. lia.
  - intros Hlt n Hlim Hn.
    destruct (Z.leb_spec (window_end w) (window_start w)); [lia|].
    rewrite Hlim.
    assert (Hslice : ∀ l : list Measurement,
              JsArray.slice l 0 n = take (Z.to_nat n) l).
    { intros l. change (JsArray.slice l 0 n)
        with (JsArray.slice l (Z.of_nat 0) n).
      rewrite (slice_inside l 0 n) by (simpl; lia).
      rewrite drop_0. f_equal. lia. }
    rewrite Hslice. split; [rewrite length_take; lia|]. split.
    + intros Hasc. destruct (MetricQuery.order query) as [[]|]; done.
    + intros ->. apply take_reverse.
  - intros Hlt Hlim.
    destruct (Z.leb_spec (window_end w) (window_start w)); [lia|].
    by destruct Hlim as [-> | ->].
Qed.

End HandleMetricsTheorems.

Lemma handleMetrics_spec_witness :
  handleMetrics (λ points _ _, points) demo_capacity
    1073741824 1099511627776 1700000000000 1700000000000 0.5 []
    cpus_provisioned
    {| MetricQuery.startTime := Some 1700000000000;
       MetricQuery.endTime := Some 1700000000000;
       MetricQuery.order := None;
       MetricQuery.limit := val 10 |}
  = [].
Proof.
  apply (proj1 (handleMetrics_spec (λ points _ _, points) demo_capacity
           1073741824 1099511627776 1700000000000 1700000000000 0.5 []
           cpus_provisioned
           {| MetricQuery.startTime := Some 1700000000000;
              MetricQuery.endTime := Some 1700000000000;
              MetricQuery.order := None;
              MetricQuery.limit := val 10 |})).
  simpl. lia.
Defined.

(** ** [errIfExists] and [errIfInvalidDiskSize] *)

Lemma matches_true (match_ item : gmap string JsValue) :
  matches match_ item = true
  ↔ ∀ key v, match_ !! key = Some v → get item key = v.
Proof.
  unfold matches. rewrite forallb_forall. split.
  - intros Hall key v Hkv.
    specialize (Hall (key, v)). cbn [fst snd] in Hall.
    eapply bool_decide_eq_true_1, Hall, list_elem_of_In.
    by apply elem_of_map_to_list.
  - intros Hall [key v] Hin. cbn [fst snd]. apply bool_decide_eq_true_2.
    apply Hall. by apply elem_of_map_to_list, list_elem_of_In.
Qed.

Lemma some_matches (collection : list (gmap string JsValue))
    (match_ : gmap string JsValue) :
  some (matches match_) collection = true
  ↔ ∃ item, item ∈ collection
            ∧ ∀ key v, match_ !! key = Some v → get item key = v.
Proof.
  unfold some. rewrite existsb_exists. split.
  - intros (item & Hin & Hm). exists item.
    split; [by apply list_elem_of_In|by apply matches_true].
  - intros (item & Hin & Hm). exists item.
    split; [by apply list_elem_of_In|by apply matches_true].
Qed.

(** X13.  [errIfExists] throws exactly when some item of the collection
    agrees with the match on every key of the match (a key the item lacks
    reads as undefined), always a 400 ObjectAlreadyExists.  The message
    quotes the name of the match when it has a truthy one.  An empty match
    agrees with every item: on a collection that is not empty it throws,
    and the message quotes the placeholder. *)
Theorem errIfExists_spec (collection : list (gmap string JsValue))
    (match_ : gmap string JsValue) (resourceLabel : option string) :
  (errIfExists collection match_ resourceLabel = Normal ()
   ↔ ∀ item, item ∈ collection →
       ∃ key v, match_ !! key = Some v ∧ get item key ≠ v)
  ∧ (∀ e, errIfExists collection match_ resourceLabel = Throw e →
          status e = 400 ∧ error_code e = "ObjectAlreadyExists")
  ∧ (∀ e name,
       errIfExists collection match_ resourceLabel = Throw e →
       match_ !! "name" = Some name → truthy name = true →
       message e
       = Some ("already exists: " +:+ default "resource" resourceLabel
               +:+ " " +:+ double_quote +:+ toString name +:+ double_quote))
  ∧ (collection ≠ [] →
     ∃ e, errIfExists collection ∅ resourceLabel = Throw e
          ∧ message e
            = Some ("already exists: " +:+ default "resource" resourceLabel
                    +:+ " " +:+ double_quote +:+ "<resource>"
                    +:+ double_quote)).
Proof.
  split; [|split; [|split]].
  - unfold errIfExists.
    destruct (some (matches match_) collection) eqn:E.
    + split; [done|]. intros Hall.
      apply some_matches in E as (item & Hin & Hm).
      destruct (Hall item Hin) as (key & v & Hkv & Hne).
      by destruct Hne; apply Hm.
    + split; [|done]. intros _ item Hin.
      apply not_true_iff_false in E. rewrite some_matches in E.
      destruct (decide (Exists (λ kv, get item kv.1 ≠ kv.2)
                               (map_to_list match_)))
        as [Hsome|Hnone].
      * apply Exists_exists in Hsome as ((key & v) & Hkv & Hne).
        exists key, v. split; [by apply elem_of_map_to_list|done].
      * destruct E. exists item. split; [done|]. intros key v Hkv.
        destruct (decide (get item key = v)) as [|Hne]; [done|].
        destruct Hnone. apply Exists_exists. exists (key, v).
        split; [by apply elem_of_map_to_list|done].
  - intros e. unfold errIfExists.
    destruct (some _ collection); [|done]. by intros [= <-].
  - intros e name. unfold errIfExists.
    destruct (some _ collection); [|done]. intros [= <-] Hname Htruthy.
    cbn [message]. unfold get at 1 2. rewrite Hname. cbn [default from_option id].
    rewrite Htruthy, bool_decide_eq_true_2 by eauto. done.
  - intros Hne. unfold errIfExists.
    assert (some (matches ∅) collection = true) as ->.
    { apply some_matches. destruct collection as [|item rest]; [done|].
      exists item. split; [apply list_elem_of_here|].
      intros key v Hkv. by rewrite lookup_empty in Hkv. }
    eexists. split; [reflexivity|]. cbn [message].
    rewrite !lookup_empty.
    rewrite !bool_decide_eq_false_2 by (by intros [? ?]). done.
Qed.

Lemma errIfExists_spec_witness :
  ∃ e,
    errIfExists [ {[ "id" := JsString "d1"; "name" := JsString "disk-1" ]} ]
      ∅ (Some "disk") = Throw e
    ∧ message e
      = Some ("already exists: disk " +:+ double_quote +:+ "<resource>"
              +:+ double_quote).
Proof.
  apply (proj2 (proj2 (proj2
    (errIfExists_spec
       [ {[ "id" := JsString "d1"; "name" := JsString "disk-1" ]} ]
       ∅ (Some "disk"))))).
  discriminate.
Defined.

Section DiskSizeTheorems.
Context (MIN_DISK_SIZE_GiB MAX_DISK_SIZE_GiB GiB : Z).

Lemma size_of_unknown (id : string) (l : list Disk.Sized) :
  (∀ s, s ∈ l → Disk.sized_id s ≠ id) → Disk.size_of id l = 0.
Proof.
  intros Hno. unfold Disk.size_of.
  destruct (find _ l) as [s|] eqn:E; [|done].
  apply find_Some_elem in E as [Hin Hid]. by destruct (Hno s Hin).
Qed.

(** X14.  [errIfInvalidDiskSize] returns exactly when the size is within
    [MIN_DISK_SIZE_GiB * GiB, MAX_DISK_SIZE_GiB * GiB] and, for a disk made
    from a snapshot or an image, not below the size of the first snapshot
    or image with that id.  The bounds are checked first, whatever the
    source.  A snapshot or image that is not in the database counts as
    size 0. *)
Theorem errIfInvalidDiskSize_spec (snapshots images : list Disk.Sized)
    (disk : Disk.DiskCreate) :
  let check :=
    Disk.errIfInvalidDiskSize MIN_DISK_SIZE_GiB MAX_DISK_SIZE_GiB GiB
      snapshots images disk in
  (check = Normal ()
   ↔ MIN_DISK_SIZE_GiB * GiB ≤ Disk.size disk ≤ MAX_DISK_SIZE_GiB * GiB
     ∧ match Disk.disk_source disk with
       | Disk.snapshot id => Disk.size_of id snapshots ≤ Disk.size disk
       | Disk.image id => Disk.size_of id images ≤ Disk.size disk
       | _ => True
       end)
  ∧ (Disk.size disk < MIN_DISK_SIZE_GiB * GiB →
     check = Throw ("Disk size must be greater than or equal to "
                    +:+ pretty MIN_DISK_SIZE_GiB +:+ " GiB"))
  ∧ (MIN_DISK_SIZE_GiB * GiB ≤ Disk.size disk →
     MAX_DISK_SIZE_GiB * GiB < Disk.size disk →
     check = Throw ("Disk size must be less than or equal to "
                    +:+ pretty MAX_DISK_SIZE_GiB +:+ " GiB"))
  ∧ (∀ id,
       Disk.disk_source disk = Disk.snapshot id →
       (∀ s, s ∈ snapshots → Disk.sized_id s ≠ id) →
       0 ≤ MIN_DISK_SIZE_GiB * GiB →
       (check = Normal ()
        ↔ MIN_DISK_SIZE_GiB * GiB ≤ Disk.size disk
                                  ≤ MAX_DISK_SIZE_GiB * GiB)).
Proof.
  intros check.
  assert (Hiff : check = Normal ()
    ↔ MIN_DISK_SIZE_GiB * GiB ≤ Disk.size disk ≤ MAX_DISK_SIZE_GiB * GiB
      ∧ match Disk.disk_source disk with
        | Disk.snapshot id => Disk.size_of id snapshots ≤ Disk.size disk
        | Disk.image id => Disk.size_of id images ≤ Disk.size disk
        | _ => True
        end).
  { subst check. unfold Disk.errIfInvalidDiskSize.
    destruct (Z.ltb_spec (Disk.size disk) (MIN_DISK_SIZE_GiB * GiB));
      [split; [done|lia]|].
    destruct (Z.ltb_spec (MAX_DISK_SIZE_GiB * GiB) (Disk.size disk));
      [split; [done|lia]|].
    destruct (Disk.disk_source disk) as [|id|id|].
    - split; [intros _; split; [lia|done]|done].
    - destruct (Z.leb_spec (Disk.size_of id snapshots) (Disk.size disk)).
      + split; [intros _; split; [lia|done]|done].
      + split; [done|]. intros [_ ?]. lia.
    - destruct (Z.leb_spec (Disk.size_of id images) (Disk.size disk)).
      + split; [intros _; split; [lia|done]|done].
      + split; [done|]. intros [_ ?]. lia.
    - split; [intros _; split; [lia|done]|done]. }
  split; [exact Hiff|]. split; [|split].
  - intros Hlt. subst check. unfold Disk.errIfInvalidDiskSize.
    destruct (Z.ltb_spec (Disk.size disk) (MIN_DISK_SIZE_GiB * GiB)); [done|lia].
  - intros Hge Hgt. subst check. unfold Disk.errIfInvalidDiskSize.
    destruct (Z.ltb_spec (Disk.size disk) (MIN_DISK_SIZE_GiB * GiB)); [lia|].
    destruct (Z.ltb_spec (MAX_DISK_SIZE_GiB * GiB) (Disk.size disk)); [done|lia].
  - intros id Hsrc Hunknown Hmin. rewrite Hiff, Hsrc.
    rewrite (size_of_unknown id snapshots Hunknown). split; [tauto|].
    intros Hb. split; [done|lia].
Qed.

End DiskSizeTheorems.

Lemma errIfInvalidDiskSize_spec_witness :
  Disk.errIfInvalidDiskSize 1 1023 1073741824
    [ {| Disk.sized_id := "s1"; Disk.sized_size := 4294967296 |} ] []
    {| Disk.size := 2147483648; Disk.disk_source := Disk.snapshot "s2" |}
  = Normal ().
Proof.
  apply (proj2 (proj2 (proj2
    (errIfInvalidDiskSize_spec 1 1023 1073741824
       [ {| Disk.sized_id := "s1"; Disk.sized_size := 4294967296 |} ] []
       {| Disk.size := 2147483648;
          Disk.disk_source := Disk.snapshot "s2" |}))) "s2").
  - reflexivity.
  - intros s Hs. apply list_elem_of_singleton in Hs as ->. discriminate.
  - lia.
  - simpl. lia.
Defined.

(** ** OxQL result shaping, further *)

Lemma foldl_Qmax_spec (l : list Q) :
  ∀ acc,
    (acc <= foldl Qmax acc l)%Q
    ∧ Forall (λ v, (v <= foldl Qmax acc l)%Q) l
    ∧ ((foldl Qmax acc l == acc)%Q
       ∨ ∃ v, v ∈ l ∧ (foldl Qmax acc l == v)%Q).
Proof.
  induction l as [|x l IH]; intros acc; cbn [foldl].
  - split; [apply Qle_refl|]. split; [done|]. left. reflexivity.
  - destruct (IH (Qmax acc x)) as (Hacc & Hall & Hatt).
    split; [eapply Qle_trans; [apply Q.le_max_l|exact Hacc]|].
    split.
    + apply Forall_cons. split; [|done].
      eapply Qle_trans; [apply Q.le_max_r|exact Hacc].
    + destruct Hatt as [Heq|(v & Hv & Heq)].
      * destruct (Q.max_spec acc x) as [[_ Hm]|[_ Hm]].
        -- right. exists x. split; [apply list_elem_of_here|].
           by rewrite Heq.
        -- left. by rewrite Heq.
      * right. exists v. split; [by apply list_elem_of_further|done].
Qed.

(** X15.  [getLargestValue] is never negative and no value of the data
    exceeds it; it is 0, or it is one of the values.  So it is 0 for data
    without points, with only null values, or with no positive value. *)
Theorem getLargestValue_spec (chartData : list ChartDatum) :
  (0 <= getLargestValue chartData)%Q
  ∧ (∀ d v, d ∈ chartData → value d = Some v →
            (v <= getLargestValue chartData)%Q)
  ∧ ((getLargestValue chartData == 0)%Q
     ∨ ∃ d v, d ∈ chartData ∧ value d = Some v
              ∧ (getLargestValue chartData == v)%Q)
  ∧ ((∀ d v, d ∈ chartData → value d = Some v → (v <= 0)%Q) →
     (getLargestValue chartData == 0)%Q).
Proof.
  assert (Hfold : getLargestValue chartData
                  = foldl Qmax 0%Q (omap value chartData)).
  { by destruct chartData. }
  rewrite Hfold.
  destruct (foldl_Qmax_spec (omap value chartData) 0%Q)
    as (H0 & Hall & Hatt).
  split; [done|]. split; [|split].
  - intros d v Hd Hv. rewrite Forall_forall in Hall. apply Hall.
    apply list_elem_of_omap. by exists d.
  - destruct Hatt as [Heq|(v & Hv & Heq)]; [by left|].
    right. apply list_elem_of_omap in Hv as (d & Hd & Hdv). by exists d, v.
  - intros Hneg. destruct Hatt as [Heq|(v & Hv & Heq)]; [done|].
    apply list_elem_of_omap in Hv as (d & Hd & Hdv).
    apply Qle_antisym; [|done]. rewrite Heq. by eapply Hneg.
Qed.

Lemma getLargestValue_spec_witness :
  (getLargestValue [ {| timestamp := 1; value := Some (-3)%Q |};
                     {| timestamp := 2; value := None |} ] == 0)%Q.
Proof.
  apply (proj2 (proj2 (proj2 (getLargestValue_spec
    [ {| timestamp := 1; value := Some (-3)%Q |};
      {| timestamp := 2; value := None |} ])))).
  intros d v Hd Hv. apply elem_of_cons in Hd as [->|Hd].
  - injection Hv as <-. discriminate.
  - apply list_elem_of_singleton in Hd as ->. discriminate.
Defined.

(** X16.  A timeseries that has no number at any index is neutral for the
    sum: with or without it, anywhere among the others, [sumValues]
    returns the same.  In particular the sum of no timeseries at all is
    null at every index. *)
Theorem sumValues_neutral (ts : Timeseries) (before after : list Timeseries)
    (arrLen : nat) :
  (∀ i, number_at ts i = None) →
  sumValues (before ++ ts :: after) arrLen = sumValues (before ++ after) arrLen
  ∧ sumValues [] arrLen = replicate arrLen None.
Proof.
  intros Hnone. split.
  - unfold sumValues. apply list_fmap_ext. intros _ i _.
    assert (omap as_number ((λ ts0, point_at ts0 i) <$> before ++ ts :: after)
            = omap as_number ((λ ts0, point_at ts0 i) <$> before ++ after))
      as ->; [|done].
    rewrite !fmap_app, !omap_app, fmap_cons. cbn [omap list_omap].
    specialize (Hnone i). unfold number_at in Hnone. by rewrite Hnone.
  - unfold sumValues.
    rewrite (const_fmap _ (seq 0 arrLen) None) by done.
    by rewrite length_seq.
Qed.

Lemma sumValues_neutral_witness :
  sumValues [series [Num 1; Num 2]; series [Null; NonNumeric; Null]] 3
  = sumValues [series [Num 1; Num 2]] 3.
Proof.
  apply (proj1 (sumValues_neutral (series [Null; NonNumeric; Null])
                  [series [Num 1; Num 2]] [] 3
                  ltac:(intros [|[|[|i]]]; reflexivity))).
Defined.

(** X17.  [composeOxqlData] throws exactly when it is given a result without
    any table.  Without a result, or when the first table has no
    timeseries, it returns no chart data and a count of 0; otherwise the
    count is the number of timeseries of the first table, and the tables
    after the first are not read. *)
Theorem composeOxqlData_edges :
  composeOxqlData None = Some {| chartData := []; timeseriesCount := 0 |}
  ∧ (∀ data, composeOxqlData (Some data) = None ↔ tables data = [])
  ∧ (∀ data table rest,
       tables data = table :: rest → timeseries table = [] →
       composeOxqlData (Some data)
       = Some {| chartData := []; timeseriesCount := 0 |})
  ∧ (∀ data table rest,
       tables data = table :: rest →
       ∃ r, composeOxqlData (Some data) = Some r
            ∧ timeseriesCount r = length (timeseries table)
            ∧ composeOxqlData (Some {| tables := [table] |}) = Some r).
Proof.
  split; [done|]. split; [|split].
  - intros data. unfold composeOxqlData.
    destruct (tables data) as [|t rest]; [done|].
    cbn [head mbind option_bind]. by destruct (bool_decide _).
  - intros data table rest Ht Hts. unfold composeOxqlData.
    rewrite Ht. cbn [head mbind option_bind]. by rewrite Hts.
  - intros data table rest Ht. unfold composeOxqlData at 1.
    rewrite Ht. cbn [head mbind option_bind].
    unfold composeOxqlData. cbn [tables head mbind option_bind].
    destruct (bool_decide _) eqn:E; eexists; (split; [reflexivity|]);
      cbn [timeseriesCount]; by rewrite length_fmap.
Qed.

Lemma composeOxqlData_edges_witness :
  composeOxqlData
    (Some {| tables := [ {| name := "t"; timeseries := [] |} ] |})
  = Some {| chartData := []; timeseriesCount := 0 |}.
Proof.
  apply (proj1 (proj2 (proj2 composeOxqlData_edges))
           {| tables := [ {| name := "t"; timeseries := [] |} ] |}
           {| name := "t"; timeseries := [] |} []);
    reflexivity.
Defined.

(** X18.  [getUtilizationChartProps] returns no data for a number of CPUs
    that is zero or negative.  For a positive number it keeps the length and
    the timestamps, and a busy time between 0 and 5 * 10^9 nanoseconds per
    CPU becomes a percentage between 0 and 100. *)
Theorem getUtilizationChartProps_percent
    (chartData : list ChartDatum) (nCPUs : Q) :
  ((nCPUs <= 0)%Q → data (getUtilizationChartProps chartData nCPUs) = [])
  ∧ ((0 < nCPUs)%Q →
     Forall2
       (λ d d',
          timestamp d' = timestamp d
          ∧ (value d = None ↔ value d' = None)
          ∧ ∀ v, value d = Some v → (0 <= v <= 5 * 10 ^ 9 * nCPUs)%Q →
                 ∃ v', value d' = Some v' ∧ (0 <= v' <= 100)%Q)
       chartData (data (getUtilizationChartProps chartData nCPUs))).
Proof.
  unfold getUtilizationChartProps, VCPU_KSTAT_INTERVAL_SEC, Qltb.
  cbn [data]. split.
  - intros Hz. destruct (Qle_bool _ 0) eqn:E; [done|].
    exfalso. apply not_true_iff_false in E. apply E.
    apply Qle_bool_iff. lra.
  - intros Hpos. destruct (Qle_bool _ 0) eqn:E.
    { apply Qle_bool_iff in E. lra. }
    cbn [negb]. apply Forall2_fmap_r, Forall_Forall2_diag, Forall_forall.
    intros d _. cbn [timestamp value]. split; [done|].
    split; [by destruct (value d)|].
    intros v -> [Hv0 Hv1]. eexists. split; [reflexivity|].
    set (divisor := (5 * 1000 * 1000 * 1000 * nCPUs)%Q).
    assert (Hd : (0 < divisor)%Q) by (subst divisor; lra).
    assert (Hv1' : (v <= divisor)%Q).
    { subst divisor. eapply Qle_trans; [exact Hv1|].
      apply Qle_lteq. right. ring. }
    split.
    + apply Qle_shift_div_l; [done|]. lra.
    + apply Qle_shift_div_r; [done|]. lra.
Qed.

Lemma getUtilizationChartProps_percent_witness :
  data (getUtilizationChartProps
          [ {| timestamp := 1000; value := Some 2500000000%Q |} ] (-1)) = [].
Proof.
  apply (proj1 (getUtilizationChartProps_percent
                  [ {| timestamp := 1000; value := Some 2500000000%Q |} ]
                  (-1))).
  discriminate.
Defined.

Lemma round_quotient (d : Z) (p : positive) :
  round (inject_Z d / inject_Z (Z.pos p)) = (2 * d + Z.pos p) / (2 * Z.pos p).
Proof.
  unfold round.
  assert (Heq : (inject_Z d / inject_Z (Z.pos p) + 0.5
                 == (2 * d + Z.pos p) # (2 * p))%Q).
  { rewrite (Qmake_Qdiv (2 * d + Z.pos p) (2 * p)).
    change (Z.pos (2 * p)) with (2 * Z.pos p).
    rewrite inject_Z_plus, !inject_Z_mult.
    assert (Hp : ¬ (inject_Z (Z.pos p) == 0)%Q).
    { intros H0. unfold Qeq in H0. simpl in H0. lia. }
    field. exact Hp. }
  rewrite (Qfloor_comp _ _ Heq). reflexivity.
Qed.

Lemma getMeanWithinSeconds_eq (start end_ : Z) (datapoints : option positive) :
  getMeanWithinSeconds start end_ datapoints
  = Z.max 5 ((2 * differenceInSeconds end_ start
              + Z.pos (default 60%positive datapoints))
             / (2 * Z.pos (default 60%positive datapoints))).
Proof. unfold getMeanWithinSeconds. by rewrite round_quotient. Qed.

(** X19.  The mean window is never below 5 seconds.  With d the whole
    seconds from start to end and n the number of datapoints (60 when left
    out): it is 5 when d / n is below 4.5, and otherwise it is d / n
    rounded to the nearest integer, so within half a second of d / n.  A
    later end never gives a shorter window. *)
Theorem getMeanWithinSeconds_bounds (start end_ : Z)
    (datapoints : option positive) :
  let n := Z.pos (default 60%positive datapoints) in
  let d := differenceInSeconds end_ start in
  let m := getMeanWithinSeconds start end_ datapoints in
  5 ≤ m
  ∧ (2 * d < 9 * n → m = 5)
  ∧ (9 * n ≤ 2 * d → 2 * m * n - n ≤ 2 * d < 2 * m * n + n)
  ∧ (∀ end', end_ ≤ end' → m ≤ getMeanWithinSeconds start end' datapoints).
Proof.
  intros n d m. subst m.
  assert (Hmono : ∀ end', end_ ≤ end' →
            getMeanWithinSeconds start end_ datapoints
            ≤ getMeanWithinSeconds start end' datapoints).
  { intros end' Hend. rewrite !getMeanWithinSeconds_eq.
    assert (differenceInSeconds end_ start ≤ differenceInSeconds end' start).
    { unfold differenceInSeconds. apply Z.quot_le_mono; lia. }
    apply Z.max_le_compat_l, Z.div_le_mono; lia. }
  revert Hmono. rewrite getMeanWithinSeconds_eq. fold n. fold d.
  intros Hmono.
  pose proof (Z.mul_div_le (2 * d + n) (2 * n) ltac:(lia)) as Hlo.
  pose proof (Z.mul_succ_div_gt (2 * d + n) (2 * n) ltac:(lia)) as Hhi.
  set (q := (2 * d + n) / (2 * n)) in *.
  split; [lia|]. split; [|split].
  - intros Hsmall. assert (q < 5); [|lia].
    subst q. apply Z.div_lt_upper_bound; lia.
  - intros Hbig. assert (5 ≤ q).
    { subst q. apply Z.div_le_lower_bound; lia. }
    rewrite Z.max_r by done. lia.
  - exact Hmono.
Qed.

Lemma getMeanWithinSeconds_bounds_witness :
  2 * getMeanWithinSeconds 0 3600000 None * 60 - 60
  ≤ 2 * differenceInSeconds 3600000 0
  < 2 * getMeanWithinSeconds 0 3600000 None * 60 + 60.
Proof.
  apply (proj1 (proj2 (proj2 (getMeanWithinSeconds_bounds 0 3600000 None)))).
  vm_compute. discriminate.
Defined.






(** ** Reading an OxQL query *)

Lemma split_on_without (c : ascii) (w : string) :
  without c w = true → Ip.split_on c w = [w].
Proof.
  induction w as [|a w IH]; [done|]. cbn [without Ip.split_on].
  intros [Ha Hw]%andb_prop. apply negb_true_iff, bool_decide_eq_false in Ha.
  rewrite decide_False by done. by rewrite (IH Hw).
Qed.

Lemma split_on_first (c : ascii) (w rest : string) :
  without c w = true →
  Ip.split_on c (w +:+ String c rest) = w :: Ip.split_on c rest.
Proof.
  induction w as [|a w IH].
  - intros _. change (EmptyString +:+ String c rest) with (String c rest).
    cbn [Ip.split_on]. by rewrite decide_True.
  - cbn [without]. intros [Ha Hw]%andb_prop.
    apply negb_true_iff, bool_decide_eq_false in Ha.
    change (String a w +:+ String c rest) with (String a (w +:+ String c rest)).
    cbn [Ip.split_on]. rewrite decide_False by done. by rewrite (IH Hw).
Qed.

(** X21.  [getMetricNameFromQuery] returns the second of the words that
    single spaces separate: for a query that begins with two words free of
    spaces it is the second one, whatever follows, and for a query without
    any space it is undefined. *)
Theorem getMetricNameFromQuery_second_word (w1 w2 rest : string) :
  without " " w1 = true → without " " w2 = true →
  getMetricNameFromQuery (w1 +:+ " " +:+ w2) = Some w2
  ∧ getMetricNameFromQuery (w1 +:+ " " +:+ w2 +:+ " " +:+ rest) = Some w2
  ∧ getMetricNameFromQuery w1 = None.
Proof.
  intros H1 H2. unfold getMetricNameFromQuery. split; [|split].
  - change (w1 +:+ " " +:+ w2) with (w1 +:+ String " " w2).
    rewrite split_on_first by done. by rewrite split_on_without.
  - change (w1 +:+ " " +:+ w2 +:+ " " +:+ rest)
      with (w1 +:+ String " " (w2 +:+ String " " rest)).
    rewrite !split_on_first by done. done.
  - by rewrite split_on_without.
Qed.

Lemma getMetricNameFromQuery_second_word_witness :
  getMetricNameFromQuery
    ("get" +:+ " " +:+ "virtual_machine:vcpu_usage" +:+ " "
     +:+ "| filter vcpu_id == 0")
  = Some "virtual_machine:vcpu_usage".
Proof.
  apply (getMetricNameFromQuery_second_word
           "get" "virtual_machine:vcpu_usage" "| filter vcpu_id == 0");
    reflexivity.
Defined.

Lemma literal_Some (p s r : string) :
  Regex.literal p s = Some r → s = p +:+ r.
Proof.
  revert s. induction p as [|a p IH]; intros s; cbn [Regex.literal].
  - by intros [= ->].
  - destruct s as [|b s]; [done|]. case_decide; [|done].
    intros Hs. subst b.
    change (String a p +:+ r) with (String a (p +:+ r)). f_equal. by apply IH.
Qed.

Lemma literal_app (p r : string) : Regex.literal p (p +:+ r) = Some r.
Proof.
  induction p as [|a p IH]; [done|].
  change (String a p +:+ r) with (String a (p +:+ r)).
  cbn [Regex.literal]. by rewrite decide_True.
Qed.

Lemma skip_spaces_split (s : string) :
  ∃ w, s = w +:+ Regex.skip_spaces s ∧ Regex.all_spaces w = true.
Proof.
  induction s as [|a s (w & Hs & Hw)]; [by exists EmptyString|].
  cbn [Regex.skip_spaces]. destruct (Regex.is_space a) eqn:Ea.
  - exists (String a w). cbn [Regex.all_spaces]. rewrite Ea, Hw.
    split; [|done].
    change (String a w +:+ ?t) with (String a (w +:+ t)). by rewrite <- Hs.
  - by exists EmptyString.
Qed.

Lemma skip_spaces_app (w t : string) :
  Regex.all_spaces w = true →
  Regex.skip_spaces (w +:+ t) = Regex.skip_spaces t.
Proof.
  induction w as [|a w IH]; [done|]. cbn [Regex.all_spaces].
  intros [Ha Hw]%andb_prop.
  change (String a w +:+ t) with (String a (w +:+ t)).
  cbn [Regex.skip_spaces]. rewrite Ha. by apply IH.
Qed.

Lemma unquoted_split (s v rest : string) :
  Regex.unquoted s = (v, rest) →
  s = v +:+ rest ∧ without (ascii_of_nat 34) v = true.
Proof.
  revert v rest. induction s as [|a s IH]; intros v rest; cbn [Regex.unquoted].
  - by intros [= <- <-].
  - case_decide as Ha.
    + by intros [= <- <-].
    + destruct (Regex.unquoted s) as [v' rest'] eqn:E.
      intros [= <- <-]. destruct (IH v' rest' eq_refl) as [-> Hv].
      split; [done|]. cbn [without].
      rewrite Hv, bool_decide_eq_false_2; done.
Qed.

Lemma unquoted_app (v rest : string) :
  without (ascii_of_nat 34) v = true →
  Regex.unquoted (v +:+ String (ascii_of_nat 34) rest)
  = (v, String (ascii_of_nat 34) rest).
Proof.
  induction v as [|a v IH].
  - intros _.
    change (EmptyString +:+ ?t) with t.
    cbn [Regex.unquoted]. by rewrite decide_True.
  - cbn [without]. intros [Ha Hv]%andb_prop.
    apply negb_true_iff, bool_decide_eq_false in Ha.
    change (String a v +:+ ?t) with (String a (v +:+ t)).
    cbn [Regex.unquoted]. rewrite decide_False by done. by rewrite (IH Hv).
Qed.

Lemma match_here_Some (s v : string) :
  Regex.match_here s = Some v →
  v ≠ EmptyString ∧ without (ascii_of_nat 34) v = true
  ∧ ∃ w1 w2 rest,
      s = state_filter w1 w2 v rest
      ∧ Regex.all_spaces w1 = true ∧ Regex.all_spaces w2 = true.
Proof.
  unfold Regex.match_here.
  destruct (Regex.literal "state" s) as [s1|] eqn:E1; [|done].
  cbn [mbind option_bind].
  destruct (Regex.literal "==" (Regex.skip_spaces s1)) as [s2|] eqn:E2;
    [|done].
  cbn [mbind option_bind].
  destruct (Regex.literal double_quote (Regex.skip_spaces s2)) as [s3|] eqn:E3;
    [|done].
  cbn [mbind option_bind].
  destruct (Regex.unquoted s3) as [v' rest'] eqn:E4.
  case_decide as Hv; [done|].
  destruct (Regex.literal double_quote rest') as [rest|] eqn:E5; [|done].
  cbn [mbind option_bind]. intros [= <-].
  apply literal_Some in E1, E2, E3, E5.
  apply unquoted_split in E4 as [E4 Hq].
  destruct (skip_spaces_split s1) as (w1 & Hs1 & Hw1).
  destruct (skip_spaces_split s2) as (w2 & Hs2 & Hw2).
  split; [done|]. split; [done|]. exists w1, w2, rest.
  split; [|done]. unfold state_filter.
  rewrite E1, Hs1, E2, Hs2, E3, E4, E5. reflexivity.
Qed.

Lemma match_here_filter (w1 w2 v rest : string) :
  Regex.all_spaces w1 = true → Regex.all_spaces w2 = true →
  v ≠ EmptyString → without (ascii_of_nat 34) v = true →
  Regex.match_here (state_filter w1 w2 v rest) = Some v.
Proof.
  intros Hw1 Hw2 Hv Hq. unfold Regex.match_here, state_filter.
  rewrite literal_app. cbn [mbind option_bind].
  rewrite skip_spaces_app by done.
  change (Regex.skip_spaces ("==" +:+ ?t)) with ("==" +:+ t).
  rewrite literal_app. cbn [mbind option_bind].
  rewrite skip_spaces_app by done.
  change (Regex.skip_spaces (double_quote +:+ ?t)) with (double_quote +:+ t).
  rewrite literal_app. cbn [mbind option_bind].
  change (v +:+ double_quote +:+ rest)
    with (v +:+ String (ascii_of_nat 34) rest).
  rewrite unquoted_app by done.
  rewrite decide_False by done.
  change (String (ascii_of_nat 34) rest) with (double_quote +:+ rest).
  by rewrite literal_app.
Qed.

Lemma search_skips (pre t : string) :
  without "s" pre = true → Regex.search (pre +:+ t) = Regex.search t.
Proof.
  induction pre as [|a pre IH]; [done|]. cbn [without].
  intros [Ha Hpre]%andb_prop.
  apply negb_true_iff, bool_decide_eq_false in Ha.
  change (String a pre +:+ t) with (String a (pre +:+ t)).
  cbn [Regex.search].
  assert (Regex.match_here (String a (pre +:+ t)) = None) as ->.
  { unfold Regex.match_here. cbn [Regex.literal].
    rewrite decide_False by congruence. done. }
  by apply IH.
Qed.

(** X22.  What [getCpuStateFromQuery] returns is never empty and holds no
    double quote, and the query has it in quotes after the word state, two
    equal signs and optional white space around them.  A query that starts
    with such a filter, or has it after a text without the letter s, yields
    the quoted value; a query in which the word state does not occur yields
    undefined. *)
Theorem getCpuStateFromQuery_spec :
  (∀ query v,
     getCpuStateFromQuery query = Some v →
     v ≠ EmptyString ∧ without (ascii_of_nat 34) v = true
     ∧ ∃ pre w1 w2 rest,
         query = pre +:+ state_filter w1 w2 v rest
         ∧ Regex.all_spaces w1 = true ∧ Regex.all_spaces w2 = true)
  ∧ (∀ pre w1 w2 v rest,
       without "s" pre = true →
       Regex.all_spaces w1 = true → Regex.all_spaces w2 = true →
       v ≠ EmptyString → without (ascii_of_nat 34) v = true →
       getCpuStateFromQuery (pre +:+ state_filter w1 w2 v rest) = Some v)
  ∧ (∀ query,
       (∀ pre post, query ≠ pre +:+ "state" +:+ post) →
       getCpuStateFromQuery query = None).
Proof.
  assert (Hsound : ∀ query v,
     getCpuStateFromQuery query = Some v →
     v ≠ EmptyString ∧ without (ascii_of_nat 34) v = true
     ∧ ∃ pre w1 w2 rest,
         query = pre +:+ state_filter w1 w2 v rest
         ∧ Regex.all_spaces w1 = true ∧ Regex.all_spaces w2 = true).
  { unfold getCpuStateFromQuery. intros query v.
    induction query as [|a query IH]; cbn [Regex.search].
    - destruct (Regex.match_here EmptyString) as [v'|] eqn:E; [|done].
      intros [= ->]. apply match_here_Some in E
        as (Hv & Hq & w1 & w2 & rest & Hs & Hw1 & Hw2).
      split; [done|]. split; [done|]. by exists EmptyString, w1, w2, rest.
    - destruct (Regex.match_here (String a query)) as [v'|] eqn:E.
      + intros [= ->]. apply match_here_Some in E
          as (Hv & Hq & w1 & w2 & rest & Hs & Hw1 & Hw2).
        split; [done|]. split; [done|]. by exists EmptyString, w1, w2, rest.
      + intros Hs. destruct (IH Hs)
          as (Hv & Hq & pre & w1 & w2 & rest & -> & Hw1 & Hw2).
        split; [done|]. split; [done|].
        by exists (String a pre), w1, w2, rest. }
  split; [exact Hsound|]. split.
  - intros pre w1 w2 v rest Hpre Hw1 Hw2 Hv Hq.
    unfold getCpuStateFromQuery. rewrite search_skips by done.
    destruct (state_filter w1 w2 v rest) eqn:Es; cbn [Regex.search];
      rewrite <- Es; by rewrite match_here_filter.
  - intros query Hno.
    destruct (getCpuStateFromQuery query) as [v|] eqn:E; [|done].
    apply Hsound in E as (_ & _ & pre & w1 & w2 & rest & Hq & _).
    exfalso. eapply Hno. exact Hq.
Qed.

Lemma getCpuStateFromQuery_spec_witness :
  getCpuStateFromQuery
    ("get x | filter " +:+ state_filter " " " " "run" " | align")
  = Some "run".
Proof.
  apply (proj1 (proj2 getCpuStateFromQuery_spec)
           "get x | filter " " " " " "run" " | align");
    [reflexivity|reflexivity|reflexivity|discriminate|reflexivity].
Defined.

(** ** Scanning several ranges *)

Section IpScanTheorems.
Context (parseIp : string → Ip.ParsedIpType) (IPv4 IPv6 : string → option Z).

(** X23.  [ipInAnyRange] scans the ranges in order and stops at the first
    that holds the probe or throws: on two lists laid end to end it returns
    what the first list gives unless that is false, and only then what the
    second gives.  So after a range that holds the probe no later range is
    parsed, however malformed, and no range at all gives false. *)
Theorem ipInAnyRange_app (ip : string) (ranges more : list Ip.IpRange) :
  Ip.ipInAnyRange parseIp IPv4 IPv6 ip (ranges ++ more)
  = match Ip.ipInAnyRange parseIp IPv4 IPv6 ip ranges with
    | Some false => Ip.ipInAnyRange parseIp IPv4 IPv6 ip more
    | outcome => outcome
    end
  ∧ Ip.ipInAnyRange parseIp IPv4 IPv6 ip [] = Some false
  ∧ (∀ r, Ip.ipInRange parseIp IPv4 IPv6 ip r = Some true →
          Ip.ipInAnyRange parseIp IPv4 IPv6 ip (r :: more) = Some true).
Proof.
  split; [|split; [done|]].
  - unfold Ip.ipInAnyRange. induction ranges as [|r rs IH].
    + cbn. by destruct (Ip.some_throwing _ more) as [[]|].
    + cbn [app Ip.some_throwing].
      destruct (Ip.ipInRange parseIp IPv4 IPv6 ip r) as [[]|]; [done| |done].
      exact IH.
  - intros r Hr. unfold Ip.ipInAnyRange. cbn [Ip.some_throwing].
    by rewrite Hr.
Qed.

End IpScanTheorems.

Lemma ipInAnyRange_app_witness :
  Ip.ipInAnyRange Ip.parse_type Ip.IPv4_value Ip.IPv6_value "10.0.0.5"
    [ {| Ip.first := "10.0.0.0"; Ip.last := "10.0.0.10" |};
      {| Ip.first := "10.0.0.1"; Ip.last := "not an address" |} ]
  = Some true.
Proof.
  apply (proj2 (proj2 (ipInAnyRange_app Ip.parse_type Ip.IPv4_value
                         Ip.IPv6_value "10.0.0.5" []
                         [ {| Ip.first := "10.0.0.1";
                              Ip.last := "not an address" |} ]))).
  reflexivity.
Defined.
